(** * BlackJackGame: a shallow embedding of blackjack/game/blackjackgame.py

    The game engine is modelled as explicit state passing in a small
    state-and-exception monad: a Python exception keeps every mutation
    performed before the [raise], exactly as the interpreter does. *)

From Stdlib Require Import List Bool ZArith QArith String Lia.
From Stdlib Require Import Sorting.Permutation Sorting.Sorted.
Import ListNotations.

Open Scope Z_scope.

(** ** Cards, hands and participants *)

(** A card is represented by its point value (1 for an ace, 10 for a face
    card).  The deck and the [Player]/[Dealer] classes live in
    blackjack/game outside this file; only what the engine reads of them
    is modelled. *)
Definition card := nat.
Definition hand := list card.

(** [Player(user_id, first_name, join_id=message_id)]: a player owns a hand. *)
Record participant := mkParticipant {
  user_id : Z;
  first_name : string;
  join_id : Z;
  cards : hand
}.

(** Exceptions raised by the engine.  [NameError] is what Python raises
    when a [raise] names an identifier that is not bound in the module. *)
Inductive exc :=
| GameAlreadyRunningException
| GameNotRunningException
| NotEnoughPlayersException
| MaxPlayersReachedException
| PlayerAlreadyExistingException
| PlayerBustedException
| CardSourceExhausted
| IndexError
| NameError (name : string).

(** Which handler registry a handler call came from. *)
Inductive handler_kind := OnStart | OnStop.

(** Observable effects: handler invocations (in registration order) *)
Inductive event := HandlerCall (k : handler_kind) (h : nat).

(** The fields of a [BlackJackGame] instance the engine reads and writes.
    The dealer is represented by its hand. *)
Record game := mkGame {
  players : list participant;
  dealer : hand;
  current_player : Z;      (* self._current_player, -1 = dealer's turn *)
  running : bool;
  deck : list card;        (* self.deck, top card first *)
  on_start_handlers : list nat;
  on_stop_handlers : list nat;
  trace : list event
}.

Definition MAX_PLAYERS : nat := 5.

(** Field setters. *)
Definition set_players (g : game) (ps : list participant) : game :=
  mkGame ps (dealer g) (current_player g) (running g) (deck g)
         (on_start_handlers g) (on_stop_handlers g) (trace g).
Definition set_dealer (g : game) (d : hand) : game :=
  mkGame (players g) d (current_player g) (running g) (deck g)
         (on_start_handlers g) (on_stop_handlers g) (trace g).
Definition set_current_player (g : game) (c : Z) : game :=
  mkGame (players g) (dealer g) c (running g) (deck g)
         (on_start_handlers g) (on_stop_handlers g) (trace g).
Definition set_running (g : game) (b : bool) : game :=
  mkGame (players g) (dealer g) (current_player g) b (deck g)
         (on_start_handlers g) (on_stop_handlers g) (trace g).
Definition set_deck (g : game) (d : list card) : game :=
  mkGame (players g) (dealer g) (current_player g) (running g) d
         (on_start_handlers g) (on_stop_handlers g) (trace g).
Definition set_trace (g : game) (t : list event) : game :=
  mkGame (players g) (dealer g) (current_player g) (running g) (deck g)
         (on_start_handlers g) (on_stop_handlers g) t.

(** ** The state-and-exception monad *)

Definition M (A : Type) := game -> game * (exc + A).

Definition ret {A} (a : A) : M A := fun g => (g, inr a).
Definition raise {A} (e : exc) : M A := fun g => (g, inl e).
Definition bind {A B} (m : M A) (k : A -> M B) : M B :=
  fun g => match m g with
           | (g', inl e) => (g', inl e)
           | (g', inr a) => k a g'
           end.
Definition get : M game := fun g => (g, inr g).
Definition modify (f : game -> game) : M unit := fun g => (f g, inr tt).

Notation "x <- m ;; k" := (bind m (fun x => k))
  (at level 61, m at next level, right associativity).
Notation "m ;;; k" := (bind m (fun _ => k))
  (at level 61, right associativity).

(** Python list indexing [l[i]]: negative indices count from the end. *)
Definition py_index {A} (l : list A) (i : Z) : exc + A :=
  let n := Z.of_nat (List.length l) in
  if (0 <=? i) && (i <? n) then
    match nth_error l (Z.to_nat i) with Some a => inr a | None => inl IndexError end
  else if (- n <=? i) && (i <? 0) then
    match nth_error l (Z.to_nat (n + i)) with Some a => inr a | None => inl IndexError end
  else inl IndexError.

Definition lift {A} (r : exc + A) : M A := fun g => (g, r).

(** Replace the element at position [i] (used for [player.give_card]
    on the object stored at roster position [i]). *)
Fixpoint update_nth {A} (i : nat) (f : A -> A) (l : list A) : list A :=
  match l, i with
  | [], _ => []
  | x :: l', O => f x :: l'
  | x :: l', S i' => x :: update_nth i' f l'
  end.

(** ** The card source and the hands *)

(** Modelled from the spec: [Deck.pick_one_card] (blackjack/game/deck.py is
    not part of this file's sources).  The spec's Card Source hands out one
    card at a time and fails once it is exhausted. *)
Definition pick_one_card : M card :=
  g <- get ;;
  match deck g with
  | [] => raise CardSourceExhausted
  | c :: rest => modify (fun g => set_deck g rest) ;;; ret c
  end.

(** A reference to one of the objects of [self.players + [self.dealer]]. *)
Inductive entity := PlayerAt (i : nat) | TheDealer.

Definition add_card (c : card) (p : participant) : participant :=
  mkParticipant (user_id p) (first_name p) (join_id p) (cards p ++ [c]).

(** [entity.give_card(card)]: the card is appended to that object's hand. *)
Definition give_card (e : entity) (c : card) : M unit :=
  modify (fun g =>
    match e with
    | PlayerAt i => set_players g (update_nth i (add_card c) (players g))
    | TheDealer => set_dealer g (dealer g ++ [c])
    end).

(** [_run_handlers]: every handler is called in registration order; an
    exception inside a handler is caught and logged, so it never escapes. *)
Definition run_handlers (k : handler_kind) (hs : list nat) : M unit :=
  modify (fun g => set_trace g (trace g ++ map (HandlerCall k) hs)).

(** ** Lifecycle and roster *)

(** [for player in (self.players + [self.dealer]) * 2:
        card = self.deck.pick_one_card(); player.give_card(card)] *)
Fixpoint deal (es : list entity) : M unit :=
  match es with
  | [] => ret tt
  | e :: es' => c <- pick_one_card ;; give_card e c ;;; deal es'
  end.

(** [self.players + [self.dealer]] as object references. *)
Definition roster_and_dealer (n : nat) : list entity :=
  map PlayerAt (seq 0 n) ++ [TheDealer].

Definition start : M unit :=
  g <- get ;;
  if running g then raise GameAlreadyRunningException
  else if Nat.ltb (List.length (players g)) 1 then raise NotEnoughPlayersException
  else
    modify (fun g => set_running g true) ;;;
    (* the list [(players + [dealer]) * 2] is built once, before the loop *)
    deal (roster_and_dealer (List.length (players g)) ++
          roster_and_dealer (List.length (players g))) ;;;
    g' <- get ;;
    run_handlers OnStart (on_start_handlers g').

(** [stop(user_id)].  The guard is
    [user_id != -1 and user_id != self.players[0].user_id] (short-circuit),
    and its body [raise InsufficientPermissionsException] names an
    identifier that the module never imports, so Python raises [NameError]. *)
Definition stop (uid : Z) : M unit :=
  g <- get ;;
  (if uid =? -1 then ret tt
   else p0 <- lift (py_index (players g) 0) ;;
        if negb (uid =? user_id p0)
        then raise (NameError "InsufficientPermissionsException")
        else ret tt) ;;;
  modify (fun g => set_running g false) ;;;
  g' <- get ;;
  run_handlers OnStop (on_stop_handlers g').

(** [get_current_player]: [return self.players[self._current_player]]. *)
Definition get_current_player : M participant :=
  g <- get ;;
  lift (py_index (players g) (current_player g)).

Definition add_player (uid : Z) (name : string) (message_id : Z) : M unit :=
  g <- get ;;
  if running g then raise GameAlreadyRunningException
  else if Nat.leb MAX_PLAYERS (List.length (players g)) then raise MaxPlayersReachedException
  else if existsb (Z.eqb uid) (map user_id (players g)) then raise PlayerAlreadyExistingException
  else modify (fun g => set_players g (players g ++ [mkParticipant uid name message_id []])).

(** ** Turns, dealer automation and evaluation

    These operations read the hands' values.  The value of a hand
    ([cardvalue]) is computed by the [Player]/[Dealer] classes, which are
    not part of this file's sources; the operations are defined for an
    arbitrary valuation, and the spec's derived flags are built on it. *)
Section Engine.

Variable cardvalue : hand -> nat.

(** Modelled from the spec: [busted] is "value > 21". *)
Definition busted (h : hand) : bool := Nat.ltb 21 (cardvalue h).

(** Modelled from the spec: [has_blackjack()] is "value == 21 with exactly
    two cards". *)
Definition has_blackjack (h : hand) : bool :=
  Nat.eqb (cardvalue h) 21 && Nat.eqb (List.length h) 2.

(** [while self.dealer.cardvalue <= 16: card = self.deck.pick_one_card();
     self.dealer.give_card(card)], on the dealer's hand and the deck.
    Returns the final hand, the remaining deck and the exception that
    stopped the loop, if any. *)
Fixpoint dealer_loop (h : hand) (d : list card) : hand * list card * option exc :=
  if Nat.leb (cardvalue h) 16 then
    match d with
    | [] => (h, [], Some CardSourceExhausted)
    | c :: d' => dealer_loop (h ++ [c]) d'
    end
  else (h, d, None).

Definition dealers_turn : M unit :=
  g <- get ;;
  if negb (running g) then raise GameNotRunningException
  else
    let '(h, d, r) := dealer_loop (dealer g) (deck g) in
    modify (fun g => set_deck (set_dealer g h) d) ;;;
    match r with Some e => raise e | None => ret tt end.

Definition next_player : M unit :=
  g <- get ;;
  if negb (running g) then raise GameNotRunningException
  else if negb (current_player g =? -1) &&
          (current_player g <? Z.of_nat (List.length (players g)) - 1)
  then modify (fun g => set_current_player g (current_player g + 1))
  else modify (fun g => set_current_player g (-1)) ;;; dealers_turn.

(** [_sort_list]: [sorted(l, key=cardvalue, reverse=True)], a stable sort
    by decreasing value: an element goes after every element of equal or
    greater value already placed. *)
Fixpoint insert_desc (x : participant) (l : list participant) : list participant :=
  match l with
  | [] => [x]
  | y :: l' => if Nat.leb (cardvalue (cards x)) (cardvalue (cards y))
               then y :: insert_desc x l'
               else x :: l
  end.

Definition sort_list (l : list participant) : list participant :=
  fold_left (fun acc x => insert_desc x acc) l [].

(** (won, tie, lost, payments): [player.pay(factor)] calls in order. *)
Definition outcome : Type :=
  (list participant * list participant * list participant * list (participant * Q))%type.

(** The [for player in list_not_busted] loop of the dealer-busted branch. *)
Fixpoint eval_dealer_busted (ps : list participant) : outcome :=
  match ps with
  | [] => ([], [], [], [])
  | p :: ps' =>
      let '(w, t, l, pay) := eval_dealer_busted ps' in
      (p :: w, t, l,
       (p, if has_blackjack (cards p) then Qmake 5 2 else Qmake 2 1) :: pay)
  end.

(** The loop of the dealer-blackjack branch. *)
Fixpoint eval_dealer_blackjack (ps : list participant) : outcome :=
  match ps with
  | [] => ([], [], [], [])
  | p :: ps' =>
      let '(w, t, l, pay) := eval_dealer_blackjack ps' in
      if has_blackjack (cards p) then (w, p :: t, l, (p, Qmake 1 1) :: pay)
      else (w, t, p :: l, pay)
  end.

(** The loop of the [dealer.cardvalue <= 21] branch. *)
Fixpoint eval_compare (dv : nat) (ps : list participant) : outcome :=
  match ps with
  | [] => ([], [], [], [])
  | p :: ps' =>
      let '(w, t, l, pay) := eval_compare dv ps' in
      let pv := cardvalue (cards p) in
      if Nat.ltb dv pv then (p :: w, t, l, (p, Qmake 2 1) :: pay)
      else if Nat.eqb pv dv then (w, p :: t, l, (p, Qmake 1 1) :: pay)
      else if Nat.ltb pv dv then (w, t, p :: l, pay)
      else (w, t, l, pay)
  end.

Definition evaluation (g : game) : outcome :=
  let list_busted := filter (fun p => busted (cards p)) (players g) in
  let list_not_busted :=
    filter (fun p => Nat.leb (cardvalue (cards p)) 21) (players g) in
  let '(w, t, l, pay) :=
    if busted (dealer g) then eval_dealer_busted list_not_busted
    else if has_blackjack (dealer g) then eval_dealer_blackjack list_not_busted
    else if Nat.leb (cardvalue (dealer g)) 21
    then eval_compare (cardvalue (dealer g)) list_not_busted
    else ([], [], [], []) in
  (sort_list w, sort_list t, sort_list (l ++ list_busted), pay).

(** Auxiliary notions for the proofs: the three result lists cover a
    roster, and the factor paid in the dealer-busted and comparison
    branches. *)
Definition covers (o : outcome) (ps : list participant) : Prop :=
  let '(w, t, l, _) := o in Permutation (w ++ t ++ l) ps.

Definition busted_factor (p : participant) : Q :=
  if has_blackjack (cards p) then Qmake 5 2 else Qmake 2 1.

Definition compare_factor (dv : nat) (p : participant) : Q :=
  if Nat.ltb dv (cardvalue (cards p)) then Qmake 2 1 else Qmake 1 1.

End Engine.

(** ** Construction, handler registration and drawing *)

(** [BlackJackGame.__init__]: no players, cursor 0, not running, a dealer
    with an empty hand, empty handler registries.  The deck is the
    [Deck(lang_id)] built by the external deck module, passed in. *)
Definition init_game (d : list card) : game :=
  mkGame [] [] 0 false d [] [] [].

(** [register_on_start_handler(func)]: [self.__on_start_handlers.append(func)]. *)
Definition register_on_start_handler (h : nat) : M unit :=
  modify (fun g => mkGame (players g) (dealer g) (current_player g) (running g) (deck g)
                          (on_start_handlers g ++ [h]) (on_stop_handlers g) (trace g)).

(** [register_on_stop_handler(func)]: [self.__on_stop_handlers.append(func)]. *)
Definition register_on_stop_handler (h : nat) : M unit :=
  modify (fun g => mkGame (players g) (dealer g) (current_player g) (running g) (deck g)
                          (on_start_handlers g) (on_stop_handlers g ++ [h]) (trace g)).

(** The roster position of the object [self.players[i]] (Python counts a
    negative index from the end). *)
Definition py_position (n : nat) (i : Z) : nat :=
  if i <? 0 then Z.to_nat (Z.of_nat n + i) else Z.to_nat i.

Section Draw.

Variable cardvalue : hand -> nat.

(** [draw_card]: the card goes to the object returned by
    [get_current_player()], i.e. the player stored at position
    [self.players[self._current_player]]; the bust test reads that
    object's value after the card was given. *)
Definition draw_card : M unit :=
  g <- get ;;
  if negb (running g) then raise GameNotRunningException
  else
    _ <- get_current_player ;;
    let pos := py_position (List.length (players g)) (current_player g) in
    c <- pick_one_card ;;
    give_card (PlayerAt pos) c ;;;
    g' <- get ;;
    match nth_error (players g') pos with
    | Some p => if Nat.ltb 21 (cardvalue (cards p)) then raise PlayerBustedException
                else ret tt
    | None => ret tt
    end.

End Draw.

(** Modelled from the spec: the best blackjack value of a hand, an ace
    (point value 1) counting 11 when that does not bust the hand. *)
Definition bj_value (h : hand) : nat :=
  let s := fold_right Nat.add 0%nat h in
  if existsb (Nat.eqb 1) h && Nat.leb (s + 10) 21 then (s + 10)%nat else s.

(** ** Sequences of calls *)

(** [k] successive calls of an operation, stopping at the first exception
    (a caller that lets the exception propagate). *)
Fixpoint repeat_M (k : nat) (m : M unit) : M unit :=
  match k with
  | O => ret tt
  | S k' => m ;;; repeat_M k' m
  end.

(** [k] successive calls of an operation by a caller that catches every
    exception and calls again: only the state is threaded. *)
Fixpoint calls_catching (k : nat) (m : M unit) (g : game) : game :=
  match k with
  | O => g
  | S k' => calls_catching k' m (fst (m g))
  end.

(** The roster after one pass of the deal: card [i] of [cs] goes to
    player [i]. *)
Definition zip_add (cs : list card) (ps : list participant) : list participant :=
  map (fun '(c, p) => add_card c p) (combine cs ps).

(** The hand of roster-plus-dealer position [pos]: positions [0 .. n-1]
    are the players in join order, position [n] is the dealer. *)
Definition hand_at (g : game) (pos : nat) : hand :=
  match nth_error (players g) pos with
  | Some p => cards p
  | None => dealer g
  end.

(** Concrete tables used to exercise the theorems. *)
Definition ex_player (uid : Z) (cs : hand) : participant :=
  mkParticipant uid "player" 0 cs.

(** Dealer 18; players at 20, 18 and a busted 25. *)
Definition ex_table : game :=
  mkGame [ex_player 1 [10; 10]%nat; ex_player 2 [10; 8]%nat;
          ex_player 3 [10; 5; 10]%nat]
         [10; 8]%nat 0 true [] [] [] [].

(** Dealer busted at 23; a natural blackjack and a 20. *)
Definition ex_dealer_busted : game :=
  mkGame [ex_player 1 [1; 10]%nat; ex_player 2 [10; 10]%nat]
         [10; 3; 10]%nat 0 true [] [] [] [].

(** Two seated players before the first deal, with an eight-card source. *)
Definition ex_new_table : game :=
  mkGame [ex_player 1 []; ex_player 2 []] [] 0 false
         [2; 3; 4; 5; 6; 7; 8; 9]%nat [] [] [].

(** The stop handlers run after [running] is cleared. *)
Definition stopped (g : game) : game :=
  set_trace (set_running g false) (trace g ++ map (HandlerCall OnStop) (on_stop_handlers g)).

(** An idle table (running = false) whose owner asks to stop it. *)
Definition ex_idle_table : game := set_running ex_table false.

(** A running table whose dealer holds 10 and whose card source holds a
    single 2. *)
Definition ex_short_source : game := set_deck (set_dealer ex_table [10]%nat) [2]%nat.

(** ** The public interface as a sequence of calls *)

(** A call of the public interface of [BlackJackGame] that changes or
    reads the game's fields ([evaluation] and [_sort_list] do not change
    them). *)
Inductive api_call :=
| CallStart
| CallStop (uid : Z)
| CallAddPlayer (uid : Z) (name : string) (message_id : Z)
| CallGetCurrentPlayer
| CallDrawCard
| CallNextPlayer
| CallDealersTurn
| CallRegisterOnStart (h : nat)
| CallRegisterOnStop (h : nat).

Definition run_call (cardvalue : hand -> nat) (c : api_call) : M unit :=
  match c with
  | CallStart => start
  | CallStop uid => stop uid
  | CallAddPlayer uid name mid => add_player uid name mid
  | CallGetCurrentPlayer => _ <- get_current_player ;; ret tt
  | CallDrawCard => draw_card cardvalue
  | CallNextPlayer => next_player cardvalue
  | CallDealersTurn => dealers_turn cardvalue
  | CallRegisterOnStart h => register_on_start_handler h
  | CallRegisterOnStop h => register_on_stop_handler h
  end.

(** A caller (the bot) issuing the calls [cs] in order, catching every
    exception and going on with the next call. *)
Definition run_calls (cardvalue : hand -> nat) (cs : list api_call) (g : game) : game :=
  fold_left (fun g c => fst (run_call cardvalue c g)) cs g.

(** Every card on the table: the players' hands in roster order, the
    dealer's hand and the card source. *)
Definition all_cards (g : game) : list card :=
  List.concat (map cards (players g)) ++ dealer g ++ deck g.

(** [p'] is the same player as [p], holding [p]'s cards and possibly more
    after them. *)
Definition hand_extends (p p' : participant) : Prop :=
  user_id p' = user_id p /\ first_name p' = first_name p /\ join_id p' = join_id p /\
  (exists x, cards p' = cards p ++ x).

(** Cards only moved from the source to the hands between [g] and [g']. *)
Definition cards_moved (g g' : game) : Prop :=
  Forall2 hand_extends (players g) (players g') /\
  (exists x, dealer g' = dealer g ++ x) /\
  Permutation (all_cards g') (all_cards g).

(** [q] comes no earlier than [p] in a list sorted by decreasing value. *)
Definition value_ge (cardvalue : hand -> nat) (p q : participant) : Prop :=
  (cardvalue (cards q) <= cardvalue (cards p))%nat.

(** Dealer with a natural blackjack; a player with one, and a 20. *)
Definition ex_dealer_blackjack : game :=
  mkGame [ex_player 1 [1; 10]%nat; ex_player 2 [10; 10]%nat]
         [1; 10]%nat 0 true [] [] [] [].

(** ** Proofs *)

Section EvaluationFacts.

Variable cardvalue : hand -> nat.

Lemma insert_desc_perm (x : participant) (l : list participant) :
  Permutation (insert_desc cardvalue x l) (x :: l).
Proof.
  induction l as [|y l IH]; simpl; [reflexivity|].
  destruct (Nat.leb _ _); [|reflexivity].
  rewrite IH. apply perm_swap.
Qed.

Lemma sort_list_fold_perm (l acc : list participant) :
  Permutation (fold_left (fun acc x => insert_desc cardvalue x acc) l acc) (l ++ acc).
Proof.
  revert acc; induction l as [|x l IH]; intros acc; simpl; [reflexivity|].
  rewrite IH, insert_desc_perm. symmetry. apply Permutation_middle.
Qed.

Lemma sort_list_perm (l : list participant) :
  Permutation (sort_list cardvalue l) l.
Proof.
  unfold sort_list. rewrite sort_list_fold_perm, app_nil_r. reflexivity.
Qed.

(** The two filters of [evaluation] split the roster. *)
Lemma busted_split (ps : list participant) :
  Permutation
    (filter (fun p => Nat.leb (cardvalue (cards p)) 21) ps ++
     filter (fun p => busted cardvalue (cards p)) ps) ps.
Proof.
  induction ps as [|p ps IH]; simpl; [reflexivity|].
  destruct (Nat.leb (cardvalue (cards p)) 21) eqn:E;
    unfold busted; rewrite Nat.ltb_antisym, E; simpl.
  - now apply Permutation_cons.
  - symmetry; apply Permutation_cons_app; now symmetry.
Qed.

Lemma eval_dealer_busted_covers (ps : list participant) :
  covers (eval_dealer_busted cardvalue ps) ps.
Proof.
  induction ps as [|p ps IH]; simpl; [reflexivity|].
  destruct (eval_dealer_busted cardvalue ps) as [[[w t] l] pay].
  simpl in *. now apply Permutation_cons.
Qed.

Lemma eval_dealer_blackjack_covers (ps : list participant) :
  covers (eval_dealer_blackjack cardvalue ps) ps.
Proof.
  induction ps as [|p ps IH]; simpl; [reflexivity|].
  destruct (eval_dealer_blackjack cardvalue ps) as [[[w t] l] pay].
  simpl in *. destruct (has_blackjack cardvalue (cards p)); simpl.
  - symmetry; apply Permutation_cons_app; now symmetry.
  - rewrite (app_assoc w t). symmetry; apply Permutation_cons_app.
    rewrite <- app_assoc; now symmetry.
Qed.

Lemma eval_compare_covers (dv : nat) (ps : list participant) :
  covers (eval_compare cardvalue dv ps) ps.
Proof.
  induction ps as [|p ps IH]; simpl; [reflexivity|].
  destruct (eval_compare cardvalue dv ps) as [[[w t] l] pay].
  simpl in *.
  destruct (Nat.ltb dv (cardvalue (cards p))) eqn:E1; simpl.
  { now apply Permutation_cons. }
  destruct (Nat.eqb (cardvalue (cards p)) dv) eqn:E2; simpl.
  { symmetry; apply Permutation_cons_app; now symmetry. }
  destruct (Nat.ltb (cardvalue (cards p)) dv) eqn:E3; simpl.
  - rewrite (app_assoc w t). symmetry; apply Permutation_cons_app.
    rewrite <- app_assoc; now symmetry.
  - apply Nat.ltb_ge in E1. apply Nat.eqb_neq in E2. apply Nat.ltb_ge in E3. lia.
Qed.

Lemma evaluation_perm (g : game) :
  let '(w, t, l, _) := evaluation cardvalue g in
  Permutation (w ++ t ++ l) (players g).
Proof.
  unfold evaluation.
  set (nb := filter (fun p => Nat.leb (cardvalue (cards p)) 21) (players g)).
  set (bu := filter (fun p => busted cardvalue (cards p)) (players g)).
  assert (Hloop : covers
    (if busted cardvalue (dealer g) then eval_dealer_busted cardvalue nb
     else if has_blackjack cardvalue (dealer g) then eval_dealer_blackjack cardvalue nb
     else if Nat.leb (cardvalue (dealer g)) 21
     then eval_compare cardvalue (cardvalue (dealer g)) nb
     else ([], [], [], [])) nb).
  { destruct (busted cardvalue (dealer g)) eqn:Eb;
      [apply eval_dealer_busted_covers|].
    destruct (has_blackjack cardvalue (dealer g));
      [apply eval_dealer_blackjack_covers|].
    unfold busted in Eb. apply Nat.ltb_ge, Nat.leb_le in Eb. rewrite Eb.
    apply eval_compare_covers. }
  destruct (if busted cardvalue (dealer g) then _ else _) as [[[w t] l] pay].
  simpl in Hloop.
  rewrite !sort_list_perm, (app_assoc t l), (app_assoc w (t ++ l)).
  rewrite Hloop. apply busted_split.
Qed.

End EvaluationFacts.

Lemma map_app_nodup_disjoint {A B} (f : A -> B) (a b : list A) (x y : A) :
  NoDup (map f (a ++ b)) -> In x a -> In y b -> f x <> f y.
Proof.
  induction a as [|z a IH]; simpl; [tauto|].
  intros Hnd Hx Hy Heq. inversion Hnd as [|? ? Hnin Hnd']; subst.
  destruct Hx as [<-|Hx].
  - apply Hnin. rewrite map_app, in_app_iff. right. rewrite Heq. now apply in_map.
  - now apply (IH Hnd' Hx Hy).
Qed.

Section BranchFacts.

Variable cardvalue : hand -> nat.

Lemma eval_dealer_busted_spec (ps : list participant) :
  let '(w, t, l, pay) := eval_dealer_busted cardvalue ps in
  w = ps /\ t = [] /\ l = [] /\ pay = map (fun p => (p, busted_factor cardvalue p)) ps.
Proof.
  induction ps as [|p ps IH]; simpl; [auto|].
  destruct (eval_dealer_busted cardvalue ps) as [[[w t] l] pay].
  destruct IH as (-> & -> & -> & ->). auto.
Qed.

Lemma eval_compare_spec (dv : nat) (ps : list participant) :
  eval_compare cardvalue dv ps =
  (filter (fun p => Nat.ltb dv (cardvalue (cards p))) ps,
   filter (fun p => Nat.eqb (cardvalue (cards p)) dv) ps,
   filter (fun p => Nat.ltb (cardvalue (cards p)) dv) ps,
   map (fun p => (p, compare_factor cardvalue dv p))
       (filter (fun p => Nat.leb dv (cardvalue (cards p))) ps)).
Proof.
  induction ps as [|q ps IH]; simpl; [reflexivity|].
  rewrite IH. unfold compare_factor.
  destruct (Nat.ltb dv (cardvalue (cards q))) eqn:E1.
  { apply Nat.ltb_lt in E1.
    replace (Nat.eqb (cardvalue (cards q)) dv) with false by (symmetry; apply Nat.eqb_neq; lia).
    replace (Nat.ltb (cardvalue (cards q)) dv) with false by (symmetry; apply Nat.ltb_ge; lia).
    replace (Nat.leb dv (cardvalue (cards q))) with true by (symmetry; apply Nat.leb_le; lia).
    simpl. destruct (Nat.ltb_spec dv (cardvalue (cards q))); [reflexivity|lia]. }
  apply Nat.ltb_ge in E1.
  destruct (Nat.eqb (cardvalue (cards q)) dv) eqn:E2.
  { apply Nat.eqb_eq in E2.
    replace (Nat.ltb (cardvalue (cards q)) dv) with false by (symmetry; apply Nat.ltb_ge; lia).
    replace (Nat.leb dv (cardvalue (cards q))) with true by (symmetry; apply Nat.leb_le; lia).
    simpl. destruct (Nat.ltb_spec dv (cardvalue (cards q))); [lia|reflexivity]. }
  apply Nat.eqb_neq in E2.
  replace (Nat.ltb (cardvalue (cards q)) dv) with true by (symmetry; apply Nat.ltb_lt; lia).
  replace (Nat.leb dv (cardvalue (cards q))) with false by (symmetry; apply Nat.leb_gt; lia).
  reflexivity.
Qed.

End BranchFacts.

Ltac nodup_concrete :=
  repeat constructor; simpl; intuition discriminate.

(** C1: for every game state, [evaluation] returns three lists whose
    concatenation is a permutation of the roster (their union is exactly
    the roster, nobody is listed twice), and, players having distinct ids
    as [add_player] guarantees, no player appears in two of the lists. *)
Theorem evaluation_partitions_roster (cardvalue : hand -> nat) (g : game)
  (Hids : NoDup (map user_id (players g))) :
  let '(w, t, l, _) := evaluation cardvalue g in
  Permutation (w ++ t ++ l) (players g) /\
  (forall p, In p (players g) <-> In p w \/ In p t \/ In p l) /\
  (forall p q, In p w -> In q t -> user_id p <> user_id q) /\
  (forall p q, In p w -> In q l -> user_id p <> user_id q) /\
  (forall p q, In p t -> In q l -> user_id p <> user_id q).
Proof.
  pose proof (evaluation_perm cardvalue g) as HP.
  destruct (evaluation cardvalue g) as [[[w t] l] pay].
  assert (Hnd : NoDup (map user_id (w ++ t ++ l))).
  { eapply Permutation_NoDup; [|exact Hids].
    apply Permutation_map. now symmetry. }
  repeat split.
  - exact HP.
  - intros Hin. apply (Permutation_in _ (Permutation_sym HP)) in Hin.
    now rewrite !in_app_iff in Hin.
  - intros Hin. apply (Permutation_in _ HP). now rewrite !in_app_iff.
  - intros p q Hp Hq.
    apply (map_app_nodup_disjoint user_id w (t ++ l)); auto.
    apply in_app_iff; auto.
  - intros p q Hp Hq.
    apply (map_app_nodup_disjoint user_id w (t ++ l)); auto.
    apply in_app_iff; auto.
  - intros p q Hp Hq.
    rewrite map_app in Hnd. apply NoDup_app_remove_l in Hnd.
    apply (map_app_nodup_disjoint user_id t l); auto.
Qed.

Lemma evaluation_partitions_roster_witness :
  NoDup (map user_id (players ex_table)) /\
  (let '(w, t, l, _) := evaluation bj_value ex_table in
   Permutation (w ++ t ++ l) (players ex_table) /\
   (forall p, In p (players ex_table) <-> In p w \/ In p t \/ In p l) /\
   (forall p q, In p w -> In q t -> user_id p <> user_id q) /\
   (forall p q, In p w -> In q l -> user_id p <> user_id q) /\
   (forall p q, In p t -> In q l -> user_id p <> user_id q)).
Proof.
  split.
  - simpl. nodup_concrete.
  - apply (evaluation_partitions_roster bj_value ex_table). simpl. nodup_concrete.
Defined.

Lemma in_sort_list (cardvalue : hand -> nat) (x : participant) (l : list participant) :
  In x (sort_list cardvalue l) <-> In x l.
Proof.
  split; apply Permutation_in; [|symmetry]; apply sort_list_perm.
Qed.

Lemma not_busted_not_in_busted (cardvalue : hand -> nat) (p : participant)
  (ps : list participant) :
  (cardvalue (cards p) <= 21)%nat ->
  ~ In p (filter (fun p => busted cardvalue (cards p)) ps).
Proof.
  intros Hle Hin. apply filter_In in Hin as [_ Hb].
  unfold busted in Hb. apply Nat.ltb_lt in Hb. lia.
Qed.

(** C3: when the dealer is busted, every non-busted player is in the won
    list and in neither other list, and is paid 2.5 when holding a natural
    blackjack and 2 otherwise (and only that). *)
Theorem evaluation_dealer_busted (cardvalue : hand -> nat) (g : game)
  (Hd : busted cardvalue (dealer g) = true) :
  let '(w, t, l, pay) := evaluation cardvalue g in
  forall p, In p (players g) -> (cardvalue (cards p) <= 21)%nat ->
    In p w /\ ~ In p t /\ ~ In p l /\
    (forall f, In (p, f) pay <->
       f = (if has_blackjack cardvalue (cards p) then Qmake 5 2 else Qmake 2 1)).
Proof.
  unfold evaluation. rewrite Hd.
  set (nb := filter (fun p => Nat.leb (cardvalue (cards p)) 21) (players g)).
  pose proof (eval_dealer_busted_spec cardvalue nb) as Hs.
  destruct (eval_dealer_busted cardvalue nb) as [[[w t] l] pay].
  destruct Hs as (-> & -> & -> & ->).
  intros p Hin Hle.
  assert (Hnb : In p nb) by (apply filter_In; split; [exact Hin|now apply Nat.leb_le]).
  repeat split.
  - now apply in_sort_list.
  - rewrite in_sort_list. simpl. tauto.
  - rewrite in_sort_list. simpl. now apply not_busted_not_in_busted.
  - intros Hf. apply in_map_iff in Hf as (q & Hq & _).
    injection Hq as <- <-. reflexivity.
  - intros ->. apply in_map_iff. exists p. split; [reflexivity|exact Hnb].
Qed.

Lemma evaluation_dealer_busted_witness :
  busted bj_value (dealer ex_dealer_busted) = true /\
  (let '(w, t, l, pay) := evaluation bj_value ex_dealer_busted in
   forall p, In p (players ex_dealer_busted) -> (bj_value (cards p) <= 21)%nat ->
     In p w /\ ~ In p t /\ ~ In p l /\
     (forall f, In (p, f) pay <->
        f = (if has_blackjack bj_value (cards p) then Qmake 5 2 else Qmake 2 1))).
Proof.
  split.
  - reflexivity.
  - apply (evaluation_dealer_busted bj_value ex_dealer_busted). reflexivity.
Defined.

(** C4: when the dealer is neither busted nor holding a natural blackjack
    and stands at most at 21, a non-busted player above the dealer wins
    and is paid 2, one level with the dealer ties and is paid 1, and one
    below the dealer loses and is paid nothing. *)
Theorem evaluation_dealer_stands (cardvalue : hand -> nat) (g : game)
  (Hnb : busted cardvalue (dealer g) = false)
  (Hnbj : has_blackjack cardvalue (dealer g) = false)
  (Hle : (cardvalue (dealer g) <= 21)%nat) :
  let dv := cardvalue (dealer g) in
  let '(w, t, l, pay) := evaluation cardvalue g in
  forall p, In p (players g) -> (cardvalue (cards p) <= 21)%nat ->
    ((dv < cardvalue (cards p))%nat ->
       In p w /\ ~ In p t /\ ~ In p l /\ (forall f, In (p, f) pay <-> f = Qmake 2 1)) /\
    (cardvalue (cards p) = dv ->
       ~ In p w /\ In p t /\ ~ In p l /\ (forall f, In (p, f) pay <-> f = Qmake 1 1)) /\
    ((cardvalue (cards p) < dv)%nat ->
       ~ In p w /\ ~ In p t /\ In p l /\ (forall f, ~ In (p, f) pay)).
Proof.
  intros dv. unfold evaluation. rewrite Hnb, Hnbj.
  apply Nat.leb_le in Hle as Hle'. rewrite Hle'.
  rewrite eval_compare_spec. fold dv.
  intros p Hin Hpv.
  set (nb := filter (fun p => Nat.leb (cardvalue (cards p)) 21) (players g)).
  assert (Hnbp : In p nb) by (apply filter_In; split; [exact Hin|now apply Nat.leb_le]).
  pose proof (not_busted_not_in_busted cardvalue p (players g) Hpv) as Hnbu.
  assert (Hpay : forall f, In (p, f) (map (fun p => (p, compare_factor cardvalue dv p))
                                         (filter (fun p => Nat.leb dv (cardvalue (cards p))) nb))
                 <-> (dv <= cardvalue (cards p))%nat /\ f = compare_factor cardvalue dv p).
  { intros f. rewrite in_map_iff. split.
    - intros (q & Hq & Hqin). injection Hq as <- <-.
      apply filter_In in Hqin as [_ Hq]. apply Nat.leb_le in Hq. auto.
    - intros [Hd ->]. exists p. split; [reflexivity|].
      apply filter_In. split; [exact Hnbp|]. now apply Nat.leb_le. }
  split; [|split]; intros Hc; (split; [|split; [|split]]);
    try (unfold busted; rewrite in_sort_list, ?in_app_iff, !filter_In, ?Nat.ltb_lt, ?Nat.eqb_eq, ?Nat.leb_le;
         intuition lia).
  - intros f. rewrite Hpay. unfold compare_factor.
    destruct (Nat.ltb_spec dv (cardvalue (cards p))); [|lia]. intuition lia.
  - intros f. rewrite Hpay. unfold compare_factor.
    destruct (Nat.ltb_spec dv (cardvalue (cards p))); [lia|]. intuition lia.
  - intros f. rewrite Hpay. lia.
Qed.

Lemma evaluation_dealer_stands_witness :
  busted bj_value (dealer ex_table) = false /\
  has_blackjack bj_value (dealer ex_table) = false /\
  (bj_value (dealer ex_table) <= 21)%nat /\
  (let dv := bj_value (dealer ex_table) in
   let '(w, t, l, pay) := evaluation bj_value ex_table in
   forall p, In p (players ex_table) -> (bj_value (cards p) <= 21)%nat ->
     ((dv < bj_value (cards p))%nat ->
        In p w /\ ~ In p t /\ ~ In p l /\ (forall f, In (p, f) pay <-> f = Qmake 2 1)) /\
     (bj_value (cards p) = dv ->
        ~ In p w /\ In p t /\ ~ In p l /\ (forall f, In (p, f) pay <-> f = Qmake 1 1)) /\
     ((bj_value (cards p) < dv)%nat ->
        ~ In p w /\ ~ In p t /\ In p l /\ (forall f, ~ In (p, f) pay))).
Proof.
  split; [reflexivity|]. split; [reflexivity|]. split; [apply Nat.leb_le; reflexivity|].
  apply (evaluation_dealer_stands bj_value ex_table); [reflexivity|reflexivity|apply Nat.leb_le; reflexivity].
Defined.

(** C7: [add_player] checks, in this order, that the game is not running,
    that the roster holds fewer than 5 players and that the id is new; a
    failing check leaves the whole game unchanged, and success appends the
    new player (with an empty hand) at the end of the roster. *)
Theorem add_player_precedence (uid : Z) (name : string) (mid : Z) (g : game) :
  (running g = true ->
     add_player uid name mid g = (g, inl GameAlreadyRunningException)) /\
  (running g = false -> (5 <= List.length (players g))%nat ->
     add_player uid name mid g = (g, inl MaxPlayersReachedException)) /\
  (running g = false -> (List.length (players g) < 5)%nat ->
     In uid (map user_id (players g)) ->
     add_player uid name mid g = (g, inl PlayerAlreadyExistingException)) /\
  (running g = false -> (List.length (players g) < 5)%nat ->
     ~ In uid (map user_id (players g)) ->
     add_player uid name mid g =
       (set_players g (players g ++ [mkParticipant uid name mid []]), inr tt)).
Proof.
  unfold add_player, bind, get, raise, modify, MAX_PLAYERS.
  repeat split; intros Hr; rewrite Hr; try reflexivity.
  - intros Hn. apply Nat.leb_le in Hn. now rewrite Hn.
  - intros Hn Hin. apply Nat.leb_gt in Hn. rewrite Hn.
    replace (existsb (Z.eqb uid) (map user_id (players g))) with true; [reflexivity|].
    symmetry. apply existsb_exists. exists uid. split; [exact Hin|apply Z.eqb_refl].
  - intros Hn Hnin. apply Nat.leb_gt in Hn. rewrite Hn.
    replace (existsb (Z.eqb uid) (map user_id (players g))) with false; [reflexivity|].
    symmetry. apply not_true_iff_false. intros Hex.
    apply existsb_exists in Hex as (x & Hx & Heq). apply Z.eqb_eq in Heq. subst x.
    contradiction.
Qed.

(** C10: an authorised [stop] (requester -1, or the first player's id)
    succeeds whatever the value of [running]: it clears [running] and runs
    the stop handlers, without ever raising [GameNotRunningException]. *)
Theorem stop_authorised_ignores_running (uid : Z) (g : game)
  (Hauth : uid = -1 \/ exists p rest, players g = p :: rest /\ user_id p = uid) :
  stop uid g = (stopped g, inr tt).
Proof.
  unfold stop, stopped, bind, get, modify, run_handlers, ret, lift.
  destruct Hauth as [-> | (p & rest & Hps & <-)]; [reflexivity|].
  destruct (Z.eqb_spec (user_id p) (-1)) as [E|E]; [reflexivity|].
  unfold py_index. rewrite Hps. simpl.
  rewrite Z.eqb_refl. reflexivity.
Qed.

Lemma stop_authorised_ignores_running_witness :
  (user_id (ex_player 1 [10; 10]%nat) = 1 /\
   players ex_idle_table = ex_player 1 [10; 10]%nat :: tl (players ex_idle_table)) /\
  running ex_idle_table = false /\
  stop 1 ex_idle_table = (stopped ex_idle_table, inr tt).
Proof.
  split; [split; reflexivity|]. split; [reflexivity|].
  apply (stop_authorised_ignores_running 1 ex_idle_table).
  right. exists (ex_player 1 [10; 10]%nat), (tl (players ex_idle_table)).
  split; reflexivity.
Defined.

(** C5: an unauthorised [stop] on a seated table does not raise the typed
    [InsufficientPermissionsException]: that name is never imported into
    the module, so evaluating the [raise] raises [NameError] instead; the
    game is left unchanged. *)
Theorem stop_unauthorised_raises_name_error (uid : Z) (g : game)
  (p : participant) (rest : list participant)
  (Hps : players g = p :: rest) (Hnot_root : uid <> -1) (Hnot_owner : uid <> user_id p) :
  stop uid g = (g, inl (NameError "InsufficientPermissionsException")).
Proof.
  unfold stop, bind, get, raise, lift.
  apply Z.eqb_neq in Hnot_root. rewrite Hnot_root.
  unfold py_index. rewrite Hps. simpl.
  apply Z.eqb_neq in Hnot_owner. now rewrite Hnot_owner.
Qed.

Lemma stop_unauthorised_raises_name_error_witness :
  players ex_table = ex_player 1 [10; 10]%nat :: tl (players ex_table) /\
  stop 2 ex_table = (ex_table, inl (NameError "InsufficientPermissionsException")).
Proof.
  split; [reflexivity|].
  apply (stop_unauthorised_raises_name_error 2 ex_table (ex_player 1 [10; 10]%nat)
           (tl (players ex_table))); [reflexivity|lia|simpl; lia].
Defined.

(** C6 (counterexample): with the cursor at the dealer sentinel -1,
    [get_current_player] returns a roster participant, the last player,
    through Python's negative indexing. *)
Lemma get_current_player_sentinel_counterexample :
  let g := set_current_player ex_table (-1) in
  exists p, In p (players g) /\ get_current_player g = (g, inr p).
Proof.
  exists (ex_player 3 [10; 5; 10]%nat). split.
  - simpl. auto.
  - reflexivity.
Qed.

Lemma dealer_loop_spec (cardvalue : hand -> nat) (h : hand) (d : list card) :
  let '(h', d', r) := dealer_loop cardvalue h d in
  exists drawn, h' = h ++ drawn /\ d = drawn ++ d' /\
    ((r = None /\ (16 < cardvalue h')%nat) \/
     (r = Some CardSourceExhausted /\ (cardvalue h' <= 16)%nat /\ d' = [])).
Proof.
  revert h; induction d as [|c d IH]; intros h; simpl.
  - destruct (Nat.leb_spec (cardvalue h) 16); exists []; rewrite app_nil_r;
      repeat split; [right|left]; auto.
  - destruct (Nat.leb_spec (cardvalue h) 16).
    + specialize (IH (h ++ [c])).
      destruct (dealer_loop cardvalue (h ++ [c]) d) as [[h' d'] r].
      destruct IH as (drawn & -> & -> & Hr).
      exists (c :: drawn). rewrite <- !app_assoc in *. simpl in *. split; [reflexivity|split; [reflexivity|exact Hr]].
    + exists []. rewrite app_nil_r. repeat split. left. auto.
Qed.

(** [dealer_loop_spec], together with: every card the loop draws is drawn
    while the dealer is at 16 or less. *)
Lemma dealer_loop_draws (cardvalue : hand -> nat) (h : hand) (d : list card) :
  let '(h', d', r) := dealer_loop cardvalue h d in
  exists drawn, h' = h ++ drawn /\ d = drawn ++ d' /\
    (forall k, (k < List.length drawn)%nat -> (cardvalue (h ++ firstn k drawn) <= 16)%nat) /\
    ((r = None /\ (16 < cardvalue h')%nat) \/
     (r = Some CardSourceExhausted /\ (cardvalue h' <= 16)%nat /\ d' = [])).
Proof.
  revert h; induction d as [|c d IH]; intros h; simpl.
  - destruct (Nat.leb_spec (cardvalue h) 16); exists []; rewrite app_nil_r;
      (split; [reflexivity|split; [reflexivity|split; [simpl; lia|]]]); [right|left]; auto.
  - destruct (Nat.leb_spec (cardvalue h) 16) as [Hle|Hgt].
    + specialize (IH (h ++ [c])).
      destruct (dealer_loop cardvalue (h ++ [c]) d) as [[h' d'] r].
      destruct IH as (drawn & -> & -> & Hk & Hr).
      exists (c :: drawn). rewrite <- !app_assoc. split; [reflexivity|split; [reflexivity|]].
      split; [|now rewrite <- app_assoc in Hr].
      intros [|k] Hlt; [rewrite app_nil_r; exact Hle|].
      cbn [firstn]. change (c :: firstn k drawn) with ([c] ++ firstn k drawn).
      rewrite app_assoc. apply Hk. simpl in Hlt. lia.
    + exists []. rewrite app_nil_r. split; [reflexivity|split; [reflexivity|]].
      split; [simpl; lia|]. left. auto.
Qed.

(** C9 (amended): on a running game [dealers_turn] always terminates,
    drawing only cards of the card source, in order, and each of them
    while the dealer is at 16 or less (no card once the value passed 16,
    and no bust check in between); it either returns
    normally with the dealer's value above 16, or, when the card source
    runs out while the dealer is at 16 or less, raises the card source's
    exhaustion error with the dealer still at 16 or less. *)
Theorem dealers_turn_stands_or_exhausts (cardvalue : hand -> nat) (g : game)
  (Hrun : running g = true) :
  let '(g', r) := dealers_turn cardvalue g in
  exists drawn, dealer g' = dealer g ++ drawn /\ deck g = drawn ++ deck g' /\
    (forall k, (k < List.length drawn)%nat ->
       (cardvalue (dealer g ++ firstn k drawn) <= 16)%nat) /\
    ((r = inr tt /\ (16 < cardvalue (dealer g'))%nat) \/
     (r = inl CardSourceExhausted /\ (cardvalue (dealer g') <= 16)%nat /\ deck g' = [])).
Proof.
  unfold dealers_turn, bind, get, raise, modify, ret. rewrite Hrun. simpl.
  pose proof (dealer_loop_draws cardvalue (dealer g) (deck g)) as Hs.
  destruct (dealer_loop cardvalue (dealer g) (deck g)) as [[h d] r].
  destruct Hs as (drawn & Hh & Hd & Hk & [[-> Hv] | (-> & Hv & ->)]);
    exists drawn; simpl; repeat split; auto.
Qed.

Lemma dealers_turn_stands_or_exhausts_witness :
  running ex_short_source = true /\
  (let '(g', r) := dealers_turn bj_value ex_short_source in
   exists drawn, dealer g' = dealer ex_short_source ++ drawn /\
     deck ex_short_source = drawn ++ deck g' /\
     (forall k, (k < List.length drawn)%nat ->
        (bj_value (dealer ex_short_source ++ firstn k drawn) <= 16)%nat) /\
     ((r = inr tt /\ (16 < bj_value (dealer g'))%nat) \/
      (r = inl CardSourceExhausted /\ (bj_value (dealer g') <= 16)%nat /\ deck g' = []))).
Proof.
  split; [reflexivity|].
  apply (dealers_turn_stands_or_exhausts bj_value ex_short_source). reflexivity.
Defined.

(** C9 (counterexample): with a finite card source of positive cards,
    [dealers_turn] can end with the dealer at 12: the source runs out and
    the call raises instead of reaching a value above 16. *)
Lemma dealers_turn_finite_source_counterexample :
  ~ (forall g, running g = true -> (forall c, In c (deck g) -> (0 < c)%nat) ->
     let '(g', r) := dealers_turn bj_value g in
     r = inr tt /\ (16 < bj_value (dealer g'))%nat).
Proof.
  intros H. specialize (H ex_short_source eq_refl).
  assert (Hpos : forall c, In c (deck ex_short_source) -> (0 < c)%nat).
  { simpl. intros c [<-|[]]. lia. }
  specialize (H Hpos). vm_compute in H. destruct H as [H _]. discriminate.
Qed.

Lemma dealers_turn_keeps_cursor (cardvalue : hand -> nat) (g : game) :
  current_player (fst (dealers_turn cardvalue g)) = current_player g.
Proof.
  unfold dealers_turn, bind, get, raise, modify, ret.
  destruct (negb (running g)); [reflexivity|].
  destruct (dealer_loop cardvalue (dealer g) (deck g)) as [[h d] [e|]]; reflexivity.
Qed.

Lemma bind_ret_unit (m : M unit) (g : game) : (m ;;; ret tt) g = m g.
Proof.
  unfold bind, ret. destruct (m g) as [g' [e|[]]]; reflexivity.
Qed.

Lemma set_current_player_twice (g : game) (a b : Z) :
  set_current_player (set_current_player g a) b = set_current_player g b.
Proof. destruct g; reflexivity. Qed.

(** From a player cursor [c], [k + 1] calls of [next_player] that end at
    the last player's position hand the turn to the dealer. *)
Lemma next_player_run (cardvalue : hand -> nat) (k : nat) (g : game) (c : Z) :
  running g = true -> current_player g = c -> 0 <= c ->
  c + Z.of_nat k = Z.of_nat (List.length (players g)) - 1 ->
  repeat_M (S k) (next_player cardvalue) g =
  dealers_turn cardvalue (set_current_player g (-1)).
Proof.
  revert g c; induction k as [|k IH]; intros g c Hrun Hc Hc0 Hk.
  - simpl repeat_M. rewrite bind_ret_unit.
    unfold next_player, bind, get, modify. rewrite Hrun, Hc. simpl negb.
    replace (negb (c =? -1) && (c <? Z.of_nat (List.length (players g)) - 1)) with false
      by (symmetry; apply andb_false_iff; right; apply Z.ltb_ge; lia).
    reflexivity.
  - change (repeat_M (S (S k)) (next_player cardvalue) g)
      with ((next_player cardvalue ;;; repeat_M (S k) (next_player cardvalue)) g).
    unfold bind at 1.
    assert (Hstep : next_player cardvalue g = (set_current_player g (c + 1), inr tt)).
    { unfold next_player, bind, get, modify. rewrite Hrun, Hc. simpl negb.
      replace (negb (c =? -1) && (c <? Z.of_nat (List.length (players g)) - 1)) with true
        by (symmetry; apply andb_true_iff; split;
            [apply negb_true_iff, Z.eqb_neq; lia | apply Z.ltb_lt; lia]).
      simpl. rewrite Hc. reflexivity. }
    rewrite Hstep.
    rewrite (IH (set_current_player g (c + 1)) (c + 1));
      [| exact Hrun | reflexivity | lia | simpl; lia].
    now rewrite set_current_player_twice.
Qed.

Lemma next_player_before_last (cardvalue : hand -> nat) (k : nat) (g : game) (c : Z) :
  running g = true -> current_player g = c -> 0 <= c ->
  c + Z.of_nat k <= Z.of_nat (List.length (players g)) - 1 ->
  repeat_M k (next_player cardvalue) g = (set_current_player g (c + Z.of_nat k), inr tt).
Proof.
  revert g c; induction k as [|k IH]; intros g c Hrun Hc Hc0 Hk.
  - simpl. rewrite Z.add_0_r, <- Hc. destruct g; reflexivity.
  - simpl repeat_M. unfold bind at 1.
    assert (Hstep : next_player cardvalue g = (set_current_player g (c + 1), inr tt)).
    { unfold next_player, bind, get, modify. rewrite Hrun, Hc. simpl negb.
      replace (negb (c =? -1) && (c <? Z.of_nat (List.length (players g)) - 1)) with true
        by (symmetry; apply andb_true_iff; split;
            [apply negb_true_iff, Z.eqb_neq; lia | apply Z.ltb_lt; lia]).
      simpl. rewrite Hc. reflexivity. }
    rewrite Hstep.
    rewrite (IH (set_current_player g (c + 1)) (c + 1));
      [| exact Hrun | reflexivity | lia | simpl; lia].
    rewrite set_current_player_twice. do 2 f_equal. lia.
Qed.

Lemma next_player_keeps_sentinel (cardvalue : hand -> nat) (g : game) :
  current_player g = -1 -> current_player (fst (next_player cardvalue g)) = -1.
Proof.
  intros Hc. unfold next_player, bind, get, raise, modify.
  destruct (negb (running g)); [exact Hc|].
  rewrite Hc. simpl. rewrite dealers_turn_keeps_cursor. reflexivity.
Qed.

(** C8: on a running game with [n >= 1] players and the cursor at 0, the
    first [n - 1] calls of [next_player] only advance the cursor to the
    next player, and the [n]-th call sets it to the dealer sentinel -1
    and runs [dealers_turn]; from the sentinel, no sequence of further
    [next_player] calls (even calls made after a raised exception) moves
    the cursor away from -1. *)
Theorem next_player_reaches_dealer (cardvalue : hand -> nat) (g : game)
  (Hrun : running g = true) (Hc : current_player g = 0)
  (Hn : (1 <= List.length (players g))%nat) :
  let n := List.length (players g) in
  (forall k, (k < n)%nat ->
     repeat_M k (next_player cardvalue) g = (set_current_player g (Z.of_nat k), inr tt)) /\
  repeat_M n (next_player cardvalue) g = dealers_turn cardvalue (set_current_player g (-1)) /\
  current_player (fst (repeat_M n (next_player cardvalue) g)) = -1 /\
  (forall k g', current_player g' = -1 ->
     current_player (calls_catching k (next_player cardvalue) g') = -1).
Proof.
  intros n.
  assert (Hrunn : repeat_M n (next_player cardvalue) g =
                  dealers_turn cardvalue (set_current_player g (-1))).
  { unfold n. destruct (List.length (players g)) as [|k] eqn:E; [lia|].
    apply (next_player_run cardvalue k g 0); auto; lia. }
  split; [|split; [|split]].
  - intros k Hk. apply (next_player_before_last cardvalue k g 0); auto; lia.
  - exact Hrunn.
  - rewrite Hrunn, dealers_turn_keeps_cursor. reflexivity.
  - intros k. induction k as [|k IH]; intros g' Hg'; simpl; [exact Hg'|].
    apply IH. now apply next_player_keeps_sentinel.
Qed.

Lemma next_player_reaches_dealer_witness :
  running ex_table = true /\ current_player ex_table = 0 /\
  (1 <= List.length (players ex_table))%nat /\
  (let n := List.length (players ex_table) in
   (forall k, (k < n)%nat ->
      repeat_M k (next_player bj_value) ex_table =
      (set_current_player ex_table (Z.of_nat k), inr tt)) /\
   repeat_M n (next_player bj_value) ex_table =
   dealers_turn bj_value (set_current_player ex_table (-1)) /\
   current_player (fst (repeat_M n (next_player bj_value) ex_table)) = -1 /\
   (forall k g', current_player g' = -1 ->
      current_player (calls_catching k (next_player bj_value) g') = -1)).
Proof.
  split; [reflexivity|]. split; [reflexivity|]. split; [simpl; lia|].
  apply (next_player_reaches_dealer bj_value ex_table); [reflexivity|reflexivity|simpl; lia].
Defined.

Lemma deal_cons (e : entity) (es : list entity) (g : game) :
  deal (e :: es) g =
  match deck g with
  | [] => (g, inl CardSourceExhausted)
  | c :: rest => deal es (fst (give_card e c (set_deck g rest)))
  end.
Proof.
  simpl. cbv [bind pick_one_card get raise modify ret].
  destruct (deck g); reflexivity.
Qed.

Lemma deal_app (es1 es2 : list entity) (g : game) :
  deal (es1 ++ es2) g = (deal es1 ;;; deal es2) g.
Proof.
  revert g; induction es1 as [|e es1 IH]; intros g; [reflexivity|].
  simpl app. rewrite !deal_cons. unfold bind at 1. rewrite deal_cons.
  destruct (deck g) as [|c rest]; [reflexivity|].
  apply IH.
Qed.

Lemma update_nth_app {A} (f : A -> A) (pre post : list A) (x : A) :
  update_nth (List.length pre) f (pre ++ x :: post) = pre ++ f x :: post.
Proof.
  induction pre as [|y pre IH]; simpl; [reflexivity|]. now rewrite IH.
Qed.

(** One pass of the deal over the players [post] standing after [pre]
    gives card [i] of [cs] to the [i]-th of them. *)
Lemma deal_pass (pre post : list participant) (cs rest : list card) (g : game) :
  players g = pre ++ post -> deck g = cs ++ rest -> List.length cs = List.length post ->
  deal (map PlayerAt (seq (List.length pre) (List.length post))) g =
  (set_deck (set_players g (pre ++ zip_add cs post)) rest, inr tt).
Proof.
  revert pre cs g; induction post as [|p post IH]; intros pre cs g Hps Hd Hlen.
  - destruct cs; [|discriminate]. simpl in *. rewrite app_nil_r in *.
    destruct g; simpl in *; subst; reflexivity.
  - destruct cs as [|c cs]; [discriminate|]. simpl in Hlen.
    simpl seq. simpl map. rewrite deal_cons, Hd. simpl.
    rewrite Hps, update_nth_app.
    replace (S (List.length pre)) with (List.length (pre ++ [add_card c p]))
      by (rewrite length_app; simpl; lia).
    rewrite (IH (pre ++ [add_card c p]) cs); [| simpl; now rewrite <- app_assoc
                                            | reflexivity | lia].
    rewrite <- app_assoc. destruct g; reflexivity.
Qed.

Lemma zip_add_length (cs : list card) (ps : list participant) :
  List.length cs = List.length ps -> List.length (zip_add cs ps) = List.length ps.
Proof.
  intros H. unfold zip_add. rewrite length_map, length_combine. lia.
Qed.

Lemma start_spec (g : game) (cs1 cs2 rest : list card) (c1 c2 : card) :
  running g = false -> (1 <= List.length (players g))%nat ->
  deck g = cs1 ++ c1 :: cs2 ++ c2 :: rest ->
  List.length cs1 = List.length (players g) -> List.length cs2 = List.length (players g) ->
  start g =
  (mkGame (zip_add cs2 (zip_add cs1 (players g))) (dealer g ++ [c1; c2])
          (current_player g) true rest (on_start_handlers g) (on_stop_handlers g)
          (trace g ++ map (HandlerCall OnStart) (on_start_handlers g)), inr tt).
Proof.
  destruct g as [ps dl cur run dk sh th tr]; simpl.
  intros -> Hne -> H1 H2.
  unfold start. cbv [bind get raise modify ret]. cbn [running players].
  replace (Nat.ltb (List.length ps) 1) with false by (symmetry; apply Nat.ltb_ge; lia).
  rewrite deal_app. cbv [bind roster_and_dealer].
  rewrite deal_app. cbv [bind].
  pose proof (deal_pass [] ps cs1 (c1 :: cs2 ++ c2 :: rest)
                (set_running (mkGame ps dl cur false (cs1 ++ c1 :: cs2 ++ c2 :: rest) sh th tr) true)
                eq_refl eq_refl H1) as P1.
  simpl in P1. rewrite P1. clear P1.
  rewrite deal_cons. simpl.
  rewrite deal_app. cbv [bind].
  match goal with
  | |- context [deal (map PlayerAt _) ?st] =>
      pose proof (deal_pass [] (zip_add cs1 ps) cs2 (c2 :: rest) st eq_refl eq_refl) as P2
  end.
  rewrite zip_add_length in P2 by exact H1.
  specialize (P2 H2). simpl in P2. rewrite P2. clear P2.
  rewrite deal_cons. simpl. rewrite <- app_assoc. reflexivity.
Qed.

Lemma split_nth_card (d : list card) (m : nat) :
  (m < List.length d)%nat -> d = firstn m d ++ nth m d 0%nat :: skipn (S m) d.
Proof.
  revert d; induction m as [|m IH]; intros [|x d] H; simpl in *; try lia.
  - reflexivity.
  - f_equal. apply IH. lia.
Qed.

(** A card source with at least [2 (n + 1)] cards, cut as the deal of
    [start] consumes it. *)
Lemma deck_split_two_passes (d : list card) (n : nat) :
  (2 * S n <= List.length d)%nat ->
  d = firstn n d ++ nth n d 0%nat ::
      firstn n (skipn (S n) d) ++ nth (n + S n) d 0%nat :: skipn (2 * S n) d.
Proof.
  intros H.
  rewrite (split_nth_card d n) at 1 by lia. f_equal. f_equal.
  rewrite (split_nth_card (skipn (S n) d) n) at 1 by (rewrite length_skipn; lia).
  rewrite nth_skipn, skipn_skipn.
  replace (S n + n)%nat with (n + S n)%nat by lia.
  replace (S n + S n)%nat with (2 * S n)%nat by lia.
  reflexivity.
Qed.

Lemma zip_add_nth_error (cs : list card) (ps : list participant) (i : nat) (p : participant) :
  List.length cs = List.length ps -> nth_error ps i = Some p ->
  nth_error (zip_add cs ps) i = Some (add_card (nth i cs 0%nat) p).
Proof.
  revert cs i; induction ps as [|q ps IH]; intros cs i Hlen Hi.
  - destruct i; discriminate.
  - destruct cs as [|c cs]; [discriminate|].
    destruct i as [|i]; simpl in *.
    + now injection Hi as ->.
    + apply IH; [lia|exact Hi].
Qed.

Lemma zip_add_nth_error_none (cs : list card) (ps : list participant) (i : nat) :
  List.length cs = List.length ps -> nth_error ps i = None ->
  nth_error (zip_add cs ps) i = None.
Proof.
  intros Hlen Hi. apply nth_error_None. apply nth_error_None in Hi.
  rewrite zip_add_length; assumption.
Qed.

Lemma zip_add_user_ids (cs : list card) (ps : list participant) :
  List.length cs = List.length ps -> map user_id (zip_add cs ps) = map user_id ps.
Proof.
  revert cs; induction ps as [|p ps IH]; intros [|c cs] Hlen; simpl in *; try lia.
  - reflexivity.
  - f_equal. apply IH. lia.
Qed.

(** On a game that is not running, with [n >= 1] players and a card
    source still holding at least [2 (n + 1)] cards, [start] succeeds and
    deals round-robin over roster-plus-dealer: position [pos]
    ([0 .. n-1] the players in join order, [n] the dealer) receives
    exactly two cards, the cards number [pos] and [pos + (n + 1)] of the
    source; equivalently card [k] goes to position [k mod (n + 1)]. *)
Lemma start_round_robin_full_deck (g : game) (Hrun : running g = false)
  (Hne : (1 <= List.length (players g))%nat)
  (Hdeck : (2 * S (List.length (players g)) <= List.length (deck g))%nat) :
  let n := List.length (players g) in
  let d := deck g in
  exists g', start g = (g', inr tt) /\ running g' = true /\
    map user_id (players g') = map user_id (players g) /\
    (forall pos, (pos <= n)%nat ->
       hand_at g' pos = hand_at g pos ++ [nth pos d 0%nat; nth (pos + S n) d 0%nat]) /\
    (forall k, (k < 2 * S n)%nat ->
       nth (List.length (hand_at g (k mod S n)) + k / S n) (hand_at g' (k mod S n)) 0%nat
       = nth k d 0%nat) /\
    deck g' = skipn (2 * S n) d.
Proof.
  cbv zeta. set (n := List.length (players g)) in *. set (d := deck g) in *.
  assert (Hn : n = List.length (players g)) by reflexivity.
  pose proof (deck_split_two_passes d n Hdeck) as Hsplit.
  assert (L1 : List.length (firstn n d) = n) by (rewrite length_firstn; lia).
  assert (L2 : List.length (firstn n (skipn (S n) d)) = n)
    by (rewrite length_firstn, length_skipn; lia).
  rewrite (start_spec g _ _ _ _ _ Hrun Hne Hsplit L1 L2).
  assert (Hhand : forall pos, (pos <= n)%nat ->
    hand_at (mkGame (zip_add (firstn n (skipn (S n) d)) (zip_add (firstn n d) (players g)))
                    (dealer g ++ [nth n d 0%nat; nth (n + S n) d 0%nat])
                    (current_player g) true (skipn (2 * S n) d) (on_start_handlers g)
                    (on_stop_handlers g)
                    (trace g ++ map (HandlerCall OnStart) (on_start_handlers g))) pos
    = hand_at g pos ++ [nth pos d 0%nat; nth (pos + S n) d 0%nat]).
  { intros pos Hpos. unfold hand_at. cbn [players dealer].
    destruct (Nat.eq_dec pos n) as [->|Hlt].
    - assert (E : nth_error (players g) n = None) by (apply nth_error_None; lia).
      rewrite E, zip_add_nth_error_none; [reflexivity| |].
      + rewrite zip_add_length; lia.
      + apply zip_add_nth_error_none; [lia|exact E].
    - destruct (nth_error (players g) pos) as [p|] eqn:E.
      2:{ apply nth_error_None in E. lia. }
      rewrite (zip_add_nth_error _ _ _ (add_card (nth pos (firstn n d) 0%nat) p));
        [| rewrite zip_add_length; lia | apply zip_add_nth_error; [lia|exact E]].
      unfold add_card; cbn [cards]. rewrite <- app_assoc. cbn [app].
      rewrite !nth_firstn, nth_skipn.
      replace (pos <? n)%nat with true by (symmetry; apply Nat.ltb_lt; lia).
      replace (S n + pos)%nat with (pos + S n)%nat by lia.
      reflexivity. }
  eexists. split; [reflexivity|]. split; [reflexivity|].
  split; [|split; [exact Hhand|split; [|reflexivity]]].
  - cbn [players]. rewrite !zip_add_user_ids; try reflexivity; try lia.
    rewrite zip_add_length; lia.
  - intros k Hk.
    assert (Hpos : (k mod S n < S n)%nat) by (apply Nat.mod_upper_bound; lia).
    rewrite (Hhand (k mod S n)%nat) by lia.
    rewrite app_nth2 by lia.
    replace (List.length (hand_at g (k mod S n)) + k / S n -
             List.length (hand_at g (k mod S n)))%nat with (k / S n)%nat by lia.
    pose proof (Nat.div_mod_eq k (S n)) as Hdm.
    assert (Hq : (k / S n < 2)%nat) by (apply Nat.Div0.div_lt_upper_bound; lia).
    destruct (k / S n)%nat as [|[|q]] eqn:Eq; cbn [nth].
    + f_equal. lia.
    + f_equal. lia.
    + lia.
Qed.

(** C2 (counterexample): a seated, idle table whose card source is
    empty: [start] does not deal two cards to everybody, it raises the
    card source's exhaustion error on the first draw. *)
Lemma start_deal_counterexample :
  ~ (forall g, running g = false -> (1 <= List.length (players g))%nat ->
     exists g', start g = (g', inr tt) /\
       forall pos, (pos <= List.length (players g))%nat ->
         List.length (hand_at g' pos) = (List.length (hand_at g pos) + 2)%nat).
Proof.
  intros H.
  destruct (H ex_idle_table eq_refl) as (g' & Hs & _); [simpl; lia|].
  vm_compute in Hs. discriminate.
Qed.

(** ** Further properties of the engine *)

(** X1: [start] rejects a running game with [GameAlreadyRunningException]
    and an idle game with no players with [NotEnoughPlayersException],
    leaving the game unchanged in both cases. *)
Theorem start_guards (g : game) :
  (running g = true -> start g = (g, inl GameAlreadyRunningException)) /\
  (running g = false -> players g = [] -> start g = (g, inl NotEnoughPlayersException)).
Proof.
  unfold start, bind, get, raise. split; intros Hr; rewrite Hr; [reflexivity|].
  intros Hp. rewrite Hp. reflexivity.
Qed.

(** X2: on a game that is not running, [draw_card], [next_player] and
    [dealers_turn] raise [GameNotRunningException] and change nothing
    (no card is drawn, the cursor does not move). *)
Theorem not_running_rejected (cardvalue : hand -> nat) (g : game)
  (Hr : running g = false) :
  draw_card cardvalue g = (g, inl GameNotRunningException) /\
  next_player cardvalue g = (g, inl GameNotRunningException) /\
  dealers_turn cardvalue g = (g, inl GameNotRunningException).
Proof.
  unfold draw_card, next_player, dealers_turn, bind, get, raise.
  rewrite Hr. repeat split.
Qed.

Lemma not_running_rejected_witness :
  running ex_idle_table = false /\
  draw_card bj_value ex_idle_table = (ex_idle_table, inl GameNotRunningException) /\
  next_player bj_value ex_idle_table = (ex_idle_table, inl GameNotRunningException) /\
  dealers_turn bj_value ex_idle_table = (ex_idle_table, inl GameNotRunningException).
Proof.
  split; [reflexivity|]. apply (not_running_rejected bj_value ex_idle_table). reflexivity.
Defined.

(** X3: [draw_card] on a running game whose cursor is a player position
    [i] takes the top card of the source and appends it to player [i]'s
    hand, leaving the other players alone; if the new value exceeds 21 it
    raises [PlayerBustedException], but the card stays in the hand. *)
Theorem draw_card_player (cardvalue : hand -> nat) (g : game) (i : nat)
  (p : participant) (c : card) (rest : list card)
  (Hr : running g = true) (Hc : current_player g = Z.of_nat i)
  (Hp : nth_error (players g) i = Some p) (Hd : deck g = c :: rest) :
  draw_card cardvalue g =
  (set_deck (set_players g (update_nth i (add_card c) (players g))) rest,
   if Nat.ltb 21 (cardvalue (cards p ++ [c])) then inl PlayerBustedException else inr tt).
Proof.
  assert (Hi : (i < List.length (players g))%nat)
    by (apply nth_error_Some; rewrite Hp; discriminate).
  unfold draw_card, get_current_player, py_index, pick_one_card, give_card,
    bind, get, raise, modify, ret, lift.
  rewrite Hr. change (negb true) with false. cbv beta iota zeta. rewrite Hc.
  replace ((0 <=? Z.of_nat i) && (Z.of_nat i <? Z.of_nat (List.length (players g))))
    with true by (symmetry; apply andb_true_iff; lia).
  rewrite Nat2Z.id, Hp.
  unfold py_position. replace (Z.of_nat i <? 0) with false by (symmetry; apply Z.ltb_ge; lia).
  rewrite Nat2Z.id, Hd. simpl.
  assert (Hu : nth_error (update_nth i (add_card c) (players g)) i = Some (add_card c p)).
  { clear -Hp. revert i Hp; induction (players g) as [|q l IH]; intros [|i] Hp;
      simpl in *; try discriminate; [now injection Hp as ->|now apply IH]. }
  rewrite Hu. simpl. destruct (Nat.ltb 21 _); reflexivity.
Qed.

Lemma draw_card_player_witness :
  running ex_short_source = true /\ current_player ex_short_source = Z.of_nat 0 /\
  nth_error (players ex_short_source) 0 = Some (ex_player 1 [10; 10]%nat) /\
  deck ex_short_source = 2%nat :: [] /\
  draw_card bj_value ex_short_source =
  (set_deck (set_players ex_short_source
     (update_nth 0 (add_card 2%nat) (players ex_short_source))) [],
   if Nat.ltb 21 (bj_value ([10; 10]%nat ++ [2%nat])) then inl PlayerBustedException else inr tt).
Proof.
  do 4 (split; [reflexivity|]).
  apply (draw_card_player bj_value ex_short_source 0 (ex_player 1 [10; 10]%nat)); reflexivity.
Defined.

(** X4: during the dealer's turn (cursor -1) [draw_card] does not fail:
    Python's index -1 selects the last player, who receives the card. *)
Theorem draw_card_at_dealer_sentinel (cardvalue : hand -> nat) (g : game)
  (ps : list participant) (p : participant) (c : card) (rest : list card)
  (Hr : running g = true) (Hc : current_player g = -1)
  (Hp : players g = ps ++ [p]) (Hd : deck g = c :: rest) :
  draw_card cardvalue g =
  (set_deck (set_players g (ps ++ [add_card c p])) rest,
   if Nat.ltb 21 (cardvalue (cards p ++ [c])) then inl PlayerBustedException else inr tt).
Proof.
  assert (Hlen : List.length (players g) = S (List.length ps))
    by (rewrite Hp, length_app; simpl; lia).
  unfold draw_card, get_current_player, py_index, pick_one_card, give_card,
    bind, get, raise, modify, ret, lift.
  rewrite Hr. change (negb true) with false. cbv beta iota zeta. rewrite Hc. rewrite Hlen.
  replace ((0 <=? -1) && (-1 <? Z.of_nat (S (List.length ps)))) with false by reflexivity.
  replace ((- Z.of_nat (S (List.length ps)) <=? -1) && (-1 <? 0)) with true
    by (symmetry; apply andb_true_iff; split; [apply Z.leb_le | apply Z.ltb_lt]; lia).
  replace (Z.to_nat (Z.of_nat (S (List.length ps)) + -1)) with (List.length ps) by lia.
  rewrite Hp, nth_error_app2, Nat.sub_diag by lia. simpl nth_error.
  unfold py_position. change (-1 <? 0) with true. cbv beta iota.
  replace (Z.to_nat (Z.of_nat (S (List.length ps)) + -1)) with (List.length ps) by lia.
  rewrite Hd. cbn [players set_players set_deck]. rewrite Hp, update_nth_app.
  rewrite nth_error_app2, Nat.sub_diag by lia. simpl.
  destruct (Nat.ltb 21 _); reflexivity.
Qed.

Lemma draw_card_at_dealer_sentinel_witness :
  let g := set_current_player ex_short_source (-1) in
  running g = true /\ current_player g = -1 /\
  players g = [ex_player 1 [10; 10]%nat; ex_player 2 [10; 8]%nat] ++
              [ex_player 3 [10; 5; 10]%nat] /\
  deck g = 2%nat :: [] /\
  draw_card bj_value g =
  (set_deck (set_players g ([ex_player 1 [10; 10]%nat; ex_player 2 [10; 8]%nat] ++
                            [add_card 2%nat (ex_player 3 [10; 5; 10]%nat)])) [],
   if Nat.ltb 21 (bj_value ([10; 5; 10]%nat ++ [2%nat])) then inl PlayerBustedException
   else inr tt).
Proof.
  do 4 (split; [reflexivity|]).
  apply (draw_card_at_dealer_sentinel bj_value); reflexivity.
Defined.

(** *** Cards move from the source to the hands, and nowhere else *)

Lemma Forall2_hand_extends_refl (ps : list participant) : Forall2 hand_extends ps ps.
Proof.
  induction ps as [|p ps IH]; constructor; [|exact IH].
  repeat split. exists []. now rewrite app_nil_r.
Qed.

Lemma Forall2_hand_extends_trans (a b c : list participant) :
  Forall2 hand_extends a b -> Forall2 hand_extends b c -> Forall2 hand_extends a c.
Proof.
  intros Hab; revert c; induction Hab as [|p q a b Hpq Hab IH]; intros c Hbc;
    inversion_clear Hbc as [|? r ? c' Hqr Hbc']; constructor; [|now apply IH].
  destruct Hpq as (H1 & H2 & H3 & x & Hx). destruct Hqr as (H1' & H2' & H3' & y & Hy).
  repeat split; try congruence. exists (x ++ y). rewrite Hy, Hx, app_assoc. reflexivity.
Qed.

Lemma Forall2_hand_extends_ids (ps qs : list participant) :
  Forall2 hand_extends ps qs -> map user_id qs = map user_id ps.
Proof.
  induction 1 as [|p q ps qs [Hid _] _ IH]; simpl; congruence.
Qed.

Lemma update_nth_extends (i : nat) (c : card) (ps : list participant) :
  Forall2 hand_extends ps (update_nth i (add_card c) ps).
Proof.
  revert i; induction ps as [|p ps IH]; intros [|i]; simpl; constructor.
  - repeat split. exists [c]. reflexivity.
  - apply Forall2_hand_extends_refl.
  - repeat split. exists []. now rewrite app_nil_r.
  - apply IH.
Qed.

Lemma update_nth_cards (i : nat) (c : card) (ps : list participant) :
  (i < List.length ps)%nat ->
  Permutation (List.concat (map cards (update_nth i (add_card c) ps))) (c :: List.concat (map cards ps)).
Proof.
  revert i; induction ps as [|p ps IH]; intros [|i] Hi; simpl in *; try lia.
  - rewrite <- app_assoc. simpl. symmetry. apply Permutation_middle.
  - rewrite IH by lia. symmetry. apply Permutation_middle.
Qed.

Lemma cards_moved_refl (g : game) : cards_moved g g.
Proof.
  split; [apply Forall2_hand_extends_refl|split; [|reflexivity]].
  exists []. now rewrite app_nil_r.
Qed.

Lemma cards_moved_frame (g g' : game) :
  players g' = players g -> dealer g' = dealer g -> deck g' = deck g -> cards_moved g g'.
Proof.
  intros Hp Hd Hk. unfold cards_moved, all_cards. rewrite Hp, Hd, Hk.
  apply (cards_moved_refl g).
Qed.

Lemma cards_moved_trans (g1 g2 g3 : game) :
  cards_moved g1 g2 -> cards_moved g2 g3 -> cards_moved g1 g3.
Proof.
  intros (H1 & (x & Hx) & P1) (H2 & (y & Hy) & P2).
  split; [now apply (Forall2_hand_extends_trans _ (players g2))|split].
  - exists (x ++ y). now rewrite Hy, Hx, app_assoc.
  - now rewrite P2.
Qed.

Lemma give_card_moved (e : entity) (c : card) (rest : list card) (g : game) :
  deck g = c :: rest ->
  (forall i, e = PlayerAt i -> (i < List.length (players g))%nat) ->
  cards_moved g (fst (give_card e c (set_deck g rest))).
Proof.
  intros Hd He. unfold give_card, modify, cards_moved, all_cards. cbn [fst].
  destruct e as [i|]; cbn [players dealer deck set_players set_dealer set_deck].
  - split; [apply update_nth_extends|split; [exists []; now rewrite app_nil_r|]].
    rewrite Hd, update_nth_cards by now apply He. simpl.
    rewrite !app_assoc. apply Permutation_middle.
  - split; [apply Forall2_hand_extends_refl|split; [now exists [c]|]].
    rewrite Hd, <- app_assoc. reflexivity.
Qed.

Lemma deal_moved (es : list entity) (g : game) :
  (forall i, In (PlayerAt i) es -> (i < List.length (players g))%nat) ->
  cards_moved g (fst (deal es g)) /\
  (exists ps d dk, fst (deal es g) = set_deck (set_dealer (set_players g ps) d) dk) /\
  (snd (deal es g) = inr tt \/ snd (deal es g) = inl CardSourceExhausted).
Proof.
  revert g; induction es as [|e es IH]; intros g Hv.
  - split; [apply cards_moved_refl|split; [|now left]].
    exists (players g), (dealer g), (deck g). now destruct g.
  - rewrite deal_cons. destruct (deck g) as [|c rest] eqn:Hd.
    + split; [apply cards_moved_refl|split; [|now right]].
      exists (players g), (dealer g), (deck g). destruct g; simpl in *; now subst.
    + set (g1 := fst (give_card e c (set_deck g rest))).
      assert (H1 : cards_moved g g1).
      { apply give_card_moved; [exact Hd|]. intros i ->. apply Hv. now left. }
      assert (Hl : List.length (players g1) = List.length (players g)).
      { destruct H1 as [HF _]. symmetry. eapply Forall2_length. exact HF. }
      destruct (IH g1) as (H2 & (ps & d & dk & Hg) & Hr).
      { intros i Hi. rewrite Hl. apply Hv. now right. }
      split; [now apply (cards_moved_trans g g1)|split; [|exact Hr]].
      exists ps, d, dk. rewrite Hg. subst g1. unfold give_card, modify.
      destruct e; destruct g; reflexivity.
Qed.

Lemma py_index_error {A} (l : list A) (i : Z) (e : exc) :
  py_index l i = inl e -> e = IndexError.
Proof.
  unfold py_index. cbv zeta.
  destruct (_ && _); [destruct (nth_error _ _); congruence|].
  destruct (_ && _); [destruct (nth_error _ _); congruence|congruence].
Qed.

Lemma py_index_position {A} (l : list A) (i : Z) (a : A) :
  py_index l i = inr a -> (py_position (List.length l) i < List.length l)%nat.
Proof.
  unfold py_index, py_position. cbv zeta. intros H.
  destruct ((0 <=? i) && (i <? Z.of_nat (List.length l))) eqn:E1.
  - apply andb_true_iff in E1 as [E1 _]. apply Z.leb_le in E1.
    replace (i <? 0) with false by (symmetry; apply Z.ltb_ge; lia).
    destruct (nth_error l (Z.to_nat i)) eqn:E; [|discriminate].
    apply nth_error_Some. rewrite E. discriminate.
  - destruct ((- Z.of_nat (List.length l) <=? i) && (i <? 0)) eqn:E2; [|discriminate].
    apply andb_true_iff in E2 as [_ E2]. rewrite E2.
    destruct (nth_error l (Z.to_nat (Z.of_nat (List.length l) + i))) eqn:E; [|discriminate].
    apply nth_error_Some. rewrite E. discriminate.
Qed.

Lemma py_index_out_of_range {A} (l : list A) (i : Z) :
  (Z.of_nat (List.length l) <= i \/ i < - Z.of_nat (List.length l)) ->
  py_index l i = inl IndexError.
Proof.
  intros H. unfold py_index. cbv zeta.
  replace ((0 <=? i) && (i <? Z.of_nat (List.length l))) with false
    by (symmetry; apply andb_false_iff; lia).
  replace ((- Z.of_nat (List.length l) <=? i) && (i <? 0)) with false
    by (symmetry; apply andb_false_iff; lia).
  reflexivity.
Qed.

Lemma py_index_in_range {A} (l : list A) (i : Z) :
  - Z.of_nat (List.length l) <= i < Z.of_nat (List.length l) ->
  exists a, py_index l i = inr a.
Proof.
  intros H. unfold py_index. cbv zeta.
  destruct ((0 <=? i) && (i <? Z.of_nat (List.length l))) eqn:E1.
  - apply andb_true_iff in E1 as [E1 E1']. apply Z.leb_le in E1. apply Z.ltb_lt in E1'.
    destruct (nth_error l (Z.to_nat i)) eqn:E; [now exists a|].
    apply nth_error_None in E. lia.
  - replace ((- Z.of_nat (List.length l) <=? i) && (i <? 0)) with true
      by (symmetry; apply andb_false_iff in E1; apply andb_true_iff;
          split; [apply Z.leb_le|apply Z.ltb_lt]; lia).
    destruct (nth_error l (Z.to_nat (Z.of_nat (List.length l) + i))) eqn:E; [now exists a|].
    apply nth_error_None in E. apply andb_false_iff in E1. lia.
Qed.

Lemma draw_card_moved (cardvalue : hand -> nat) (g : game) :
  cards_moved g (fst (draw_card cardvalue g)).
Proof.
  unfold draw_card, get_current_player, pick_one_card, give_card,
    bind, get, raise, modify, ret, lift.
  destruct (negb (running g)); [apply cards_moved_refl|].
  destruct (py_index (players g) (current_player g)) as [e|p] eqn:Ei; [apply cards_moved_refl|].
  destruct (deck g) as [|c rest] eqn:Hd; [apply cards_moved_refl|].
  pose proof (give_card_moved (PlayerAt (py_position (List.length (players g)) (current_player g)))
                c rest g Hd) as H.
  assert (Hv : forall i, PlayerAt (py_position (List.length (players g)) (current_player g)) =
                         PlayerAt i -> (i < List.length (players g))%nat).
  { intros i [= <-]. eapply py_index_position. exact Ei. }
  specialize (H Hv). unfold give_card, modify in H. cbn [fst] in H.
  match goal with |- context [nth_error ?l ?k] => destruct (nth_error l k) end;
    [destruct (Nat.ltb _ _)|]; exact H.
Qed.

Lemma dealers_turn_moved (cardvalue : hand -> nat) (g : game) :
  cards_moved g (fst (dealers_turn cardvalue g)).
Proof.
  unfold dealers_turn, bind, get, raise, modify, ret.
  destruct (negb (running g)); [apply cards_moved_refl|].
  pose proof (dealer_loop_spec cardvalue (dealer g) (deck g)) as Hs.
  destruct (dealer_loop cardvalue (dealer g) (deck g)) as [[h d] r].
  destruct Hs as (drawn & Hh & Hd & _).
  assert (Hm : cards_moved g (set_deck (set_dealer g h) d)).
  { split; [apply Forall2_hand_extends_refl|split; [now exists drawn|]].
    unfold all_cards. cbn [players dealer deck set_deck set_dealer].
    rewrite Hh, Hd, <- app_assoc. reflexivity. }
  destruct r; exact Hm.
Qed.

Lemma next_player_moved (cardvalue : hand -> nat) (g : game) :
  cards_moved g (fst (next_player cardvalue g)).
Proof.
  unfold next_player, bind at 1, get, raise, modify.
  destruct (negb (running g)); [apply cards_moved_refl|].
  destruct (_ && _); [apply cards_moved_frame; reflexivity|].
  unfold bind. apply (cards_moved_trans g (set_current_player g (-1)));
    [apply cards_moved_frame; reflexivity|].
  pose proof (dealers_turn_moved cardvalue (set_current_player g (-1))) as H.
  destruct (dealers_turn cardvalue (set_current_player g (-1))) as [g' [e|[]]]; exact H.
Qed.

Lemma stop_cases (uid : Z) (g : game) :
  stop uid g = (stopped g, inr tt) \/
  stop uid g = (g, inl IndexError) \/
  stop uid g = (g, inl (NameError "InsufficientPermissionsException")).
Proof.
  unfold stop, stopped, bind, get, modify, run_handlers, ret, lift, raise.
  destruct (uid =? -1); [now left|].
  destruct (py_index (players g) 0) as [e|p] eqn:E.
  - apply py_index_error in E. subst. now (right; left).
  - destruct (negb (uid =? user_id p)); [now (right; right)|now left].
Qed.

Lemma start_cases (g : game) :
  (running g = true /\ start g = (g, inl GameAlreadyRunningException)) \/
  (running g = false /\ players g = [] /\ start g = (g, inl NotEnoughPlayersException)) \/
  (running g = false /\ players g <> [] /\
   exists ps d dk,
     cards_moved g (mkGame ps d (current_player g) true dk
                           (on_start_handlers g) (on_stop_handlers g) (trace g)) /\
     (start g = (mkGame ps d (current_player g) true dk
                        (on_start_handlers g) (on_stop_handlers g)
                        (trace g ++ map (HandlerCall OnStart) (on_start_handlers g)), inr tt) \/
      start g = (mkGame ps d (current_player g) true dk
                        (on_start_handlers g) (on_stop_handlers g) (trace g),
                 inl CardSourceExhausted))).
Proof.
  destruct (running g) eqn:Hr.
  { left. split; [reflexivity|]. unfold start, bind, get, raise. now rewrite Hr. }
  right. destruct (Nat.ltb_spec (List.length (players g)) 1) as [Hn|Hn].
  { left. assert (Hp : players g = []) by (apply length_zero_iff_nil; lia).
    split; [reflexivity|split; [exact Hp|]].
    unfold start, bind, get, raise. rewrite Hr, Hp. reflexivity. }
  right. split; [reflexivity|split; [intros Hp; rewrite Hp in Hn; simpl in Hn; lia|]].
  set (es := roster_and_dealer (List.length (players g)) ++
             roster_and_dealer (List.length (players g))).
  assert (Hv : forall i, In (PlayerAt i) es ->
                 (i < List.length (players (set_running g true)))%nat).
  { intros i Hi. cbn [players set_running]. subst es. unfold roster_and_dealer in Hi.
    rewrite !in_app_iff, !in_map_iff in Hi.
    destruct Hi as [[(j & [= <-] & Hj)|[[=]|[]]]|[(j & [= <-] & Hj)|[[=]|[]]]];
      apply in_seq in Hj; lia. }
  destruct (deal_moved es (set_running g true) Hv) as (Hm & (ps & d & dk & Hg) & Hres).
  exists ps, d, dk.
  assert (Heq : set_deck (set_dealer (set_players (set_running g true) ps) d) dk =
                mkGame ps d (current_player g) true dk
                       (on_start_handlers g) (on_stop_handlers g) (trace g))
    by (destruct g; reflexivity).
  rewrite Heq in Hg. rewrite Hg in Hm. split; [exact Hm|].
  unfold start, bind, get, raise, modify, run_handlers, ret. rewrite Hr.
  replace (Nat.ltb (List.length (players g)) 1) with false by (symmetry; apply Nat.ltb_ge; lia).
  fold es. destruct (deal es (set_running g true)) as [g1 r]. cbn [fst snd] in Hg, Hres.
  subst g1. destruct Hres as [-> | ->]; [left|right]; reflexivity.
Qed.

Lemma add_player_cases (uid : Z) (name : string) (mid : Z) (g : game) :
  fst (add_player uid name mid g) = g \/
  (running g = false /\ (List.length (players g) < MAX_PLAYERS)%nat /\
   ~ In uid (map user_id (players g)) /\
   add_player uid name mid g =
     (set_players g (players g ++ [mkParticipant uid name mid []]), inr tt)).
Proof.
  unfold add_player, bind, get, raise, modify.
  destruct (running g) eqn:Hr; [now left|].
  destruct (Nat.leb_spec MAX_PLAYERS (List.length (players g))); [now left|].
  destruct (existsb (Z.eqb uid) (map user_id (players g))) eqn:Ex; [now left|].
  right. repeat split; auto.
  intros Hin. apply not_true_iff_false in Ex. apply Ex, existsb_exists.
  exists uid. split; [exact Hin|apply Z.eqb_refl].
Qed.

(** One call either only moves cards from the source to the hands, or is
    a successful [add_player]. *)
Lemma run_call_step (cardvalue : hand -> nat) (c : api_call) (g : game) :
  cards_moved g (fst (run_call cardvalue c g)) \/
  (running g = false /\ (List.length (players g) < MAX_PLAYERS)%nat /\
   exists uid name mid, ~ In uid (map user_id (players g)) /\
     fst (run_call cardvalue c g) = set_players g (players g ++ [mkParticipant uid name mid []])).
Proof.
  destruct c as [| uid | uid name mid | | | | | h | h]; simpl run_call.
  - left. destruct (start_cases g) as [(_ & ->)|[(_ & _ & ->)|(_ & _ & ps & d & dk & Hm & [-> | ->])]];
      try apply cards_moved_refl; exact Hm.
  - left. destruct (stop_cases uid g) as [-> | [-> | ->]]; try apply cards_moved_refl.
    apply cards_moved_frame; reflexivity.
  - destruct (add_player_cases uid name mid g) as [-> | (Hr & Hl & Hn & ->)];
      [left; apply cards_moved_refl|right]. split; [exact Hr|split; [exact Hl|]].
    exists uid, name, mid. split; [exact Hn|reflexivity].
  - left. unfold get_current_player, bind, get, lift, ret.
    destruct (py_index (players g) (current_player g)); apply cards_moved_refl.
  - left. apply draw_card_moved.
  - left. apply next_player_moved.
  - left. apply dealers_turn_moved.
  - left. apply cards_moved_frame; reflexivity.
  - left. apply cards_moved_frame; reflexivity.
Qed.

Lemma run_calls_cons (cardvalue : hand -> nat) (c : api_call) (cs : list api_call) (g : game) :
  run_calls cardvalue (c :: cs) g = run_calls cardvalue cs (fst (run_call cardvalue c g)).
Proof. reflexivity. Qed.

Lemma all_cards_add_player (g : game) (p : participant) :
  cards p = [] -> all_cards (set_players g (players g ++ [p])) = all_cards g.
Proof.
  intros Hp. unfold all_cards. cbn [players dealer deck set_players].
  rewrite map_app, concat_app. simpl. rewrite Hp, !app_nil_r. reflexivity.
Qed.

(** X5: on a running game, [draw_card] with the cursor outside
    [-n, n) raises [IndexError] from [get_current_player], and with a
    valid cursor but an exhausted card source raises the source's error;
    in both cases nothing changes. *)
Theorem draw_card_rejections (cardvalue : hand -> nat) (g : game)
  (Hr : running g = true) :
  let n := Z.of_nat (List.length (players g)) in
  ((n <= current_player g \/ current_player g < - n) ->
     draw_card cardvalue g = (g, inl IndexError)) /\
  (- n <= current_player g < n -> deck g = [] ->
     draw_card cardvalue g = (g, inl CardSourceExhausted)).
Proof.
  intros n. unfold draw_card, get_current_player, pick_one_card, bind, get, raise, lift.
  rewrite Hr. change (negb true) with false. cbv beta iota zeta. split.
  - intros H. rewrite py_index_out_of_range by exact H. reflexivity.
  - intros H Hd. destruct (py_index_in_range (players g) (current_player g) H) as [a ->].
    rewrite Hd. reflexivity.
Qed.

Lemma draw_card_rejections_witness :
  let g := set_current_player ex_table 7 in
  running g = true /\
  (let n := Z.of_nat (List.length (players g)) in
   ((n <= current_player g \/ current_player g < - n) ->
      draw_card bj_value g = (g, inl IndexError)) /\
   (- n <= current_player g < n -> deck g = [] ->
      draw_card bj_value g = (g, inl CardSourceExhausted))).
Proof.
  split; [reflexivity|]. apply (draw_card_rejections bj_value). reflexivity.
Defined.

(** X6: once [start] has passed its two guards it marks the game running
    before dealing, so the game stays running even when the card source
    runs out in the middle of the deal.  It never resets the cursor and
    never takes a card back: every player keeps the hand it had (from an
    earlier round too) and only receives cards.  The start handlers are
    called once each, in registration order, when the deal completes, and
    not at all when it fails. *)
Theorem start_commits_running (g : game)
  (Hr : running g = false) (Hp : players g <> []) :
  let '(g', r) := start g in
  running g' = true /\ current_player g' = current_player g /\
  Forall2 hand_extends (players g) (players g') /\
  ((r = inr tt /\ trace g' = trace g ++ map (HandlerCall OnStart) (on_start_handlers g)) \/
   (r = inl CardSourceExhausted /\ trace g' = trace g)).
Proof.
  destruct (start_cases g)
    as [(H & _)|[(_ & H & _)|(_ & _ & ps & d & dk & (HF & _) & [-> | ->])]];
    [congruence|contradiction| |];
    cbn [running current_player players trace] in *; repeat split; auto.
Qed.

Lemma start_commits_running_witness :
  let g := set_deck ex_new_table [2; 3]%nat in
  running g = false /\ players g <> [] /\
  (let '(g', r) := start g in
   running g' = true /\ current_player g' = current_player g /\
   Forall2 hand_extends (players g) (players g') /\
   ((r = inr tt /\ trace g' = trace g ++ map (HandlerCall OnStart) (on_start_handlers g)) \/
    (r = inl CardSourceExhausted /\ trace g' = trace g))).
Proof.
  split; [reflexivity|]. split; [discriminate|].
  apply (start_commits_running (set_deck ex_new_table [2; 3]%nat)); [reflexivity|discriminate].
Defined.

(** X7: after a [start] that passed its guards, whether or not the deal
    completed, a second [start] and every [add_player] are rejected with
    [GameAlreadyRunningException] and change nothing. *)
Theorem start_locks_roster (g : game) (uid : Z) (name : string) (mid : Z)
  (Hr : running g = false) (Hp : players g <> []) :
  let g' := fst (start g) in
  start g' = (g', inl GameAlreadyRunningException) /\
  add_player uid name mid g' = (g', inl GameAlreadyRunningException).
Proof.
  intros g'.
  assert (Hrun : running g' = true).
  { subst g'. destruct (start_cases g)
      as [(H & _)|[(_ & H & _)|(_ & _ & ps & d & dk & _ & [-> | ->])]];
      [congruence|contradiction|reflexivity|reflexivity]. }
  unfold start, add_player, bind, get, raise. rewrite Hrun. split; reflexivity.
Qed.

Lemma start_locks_roster_witness :
  let g := set_deck ex_new_table [2; 3]%nat in
  running g = false /\ players g <> [] /\
  (let g' := fst (start g) in
   start g' = (g', inl GameAlreadyRunningException) /\
   add_player 3 "late" 0 g' = (g', inl GameAlreadyRunningException)).
Proof.
  split; [reflexivity|]. split; [discriminate|].
  apply (start_locks_roster (set_deck ex_new_table [2; 3]%nat)); [reflexivity|discriminate].
Defined.

(** X8: [stop] either succeeds, clearing [running] and calling each stop
    handler once in registration order while leaving the roster, the
    hands, the dealer, the card source and the cursor as they are, or it
    fails with [IndexError] (empty roster) or [NameError] and changes
    nothing; it raises nothing else. *)
Theorem stop_outcomes (uid : Z) (g : game) :
  let '(g', r) := stop uid g in
  (r = inr tt /\
   g' = mkGame (players g) (dealer g) (current_player g) false (deck g)
               (on_start_handlers g) (on_stop_handlers g)
               (trace g ++ map (HandlerCall OnStop) (on_stop_handlers g))) \/
  (g' = g /\ (r = inl IndexError \/ r = inl (NameError "InsufficientPermissionsException"))).
Proof.
  destruct (stop_cases uid g) as [-> | [-> | ->]].
  - left. split; [reflexivity|]. destruct g; reflexivity.
  - right. auto.
  - right. auto.
Qed.

(** X9: after a successful [stop] the game refuses to be played:
    [draw_card], [next_player] and [dealers_turn] raise
    [GameNotRunningException] and change nothing. *)
Theorem stopped_game_rejects_play (cardvalue : hand -> nat) (uid : Z) (g g' : game)
  (Hs : stop uid g = (g', inr tt)) :
  draw_card cardvalue g' = (g', inl GameNotRunningException) /\
  next_player cardvalue g' = (g', inl GameNotRunningException) /\
  dealers_turn cardvalue g' = (g', inl GameNotRunningException).
Proof.
  destruct (stop_cases uid g) as [E | [E | E]]; rewrite E in Hs; injection Hs as <-;
    try discriminate.
  repeat split.
Qed.

Lemma stopped_game_rejects_play_witness :
  stop 1 ex_table = (stopped ex_table, inr tt) /\
  draw_card bj_value (stopped ex_table) = (stopped ex_table, inl GameNotRunningException) /\
  next_player bj_value (stopped ex_table) = (stopped ex_table, inl GameNotRunningException) /\
  dealers_turn bj_value (stopped ex_table) = (stopped ex_table, inl GameNotRunningException).
Proof.
  split; [reflexivity|]. apply (stopped_game_rejects_play bj_value 1 ex_table). reflexivity.
Defined.

(** X11: whatever calls a caller issues, catching every exception, no
    card is created, duplicated or lost: the cards of all hands and of the
    source are a permutation of those before.  Players are never removed
    or reordered and no card ever leaves a hand: the earlier players are
    the same players holding their earlier cards and possibly more, and
    the dealer's hand only grows. *)
Theorem calls_only_move_cards (cardvalue : hand -> nat) (cs : list api_call) (g : game) :
  let g' := run_calls cardvalue cs g in
  Permutation (all_cards g') (all_cards g) /\
  (exists ps1 ps2, Forall2 hand_extends (players g) ps1 /\ players g' = ps1 ++ ps2) /\
  (exists x, dealer g' = dealer g ++ x).
Proof.
  revert g; induction cs as [|c cs IH]; intros g.
  - split; [reflexivity|split].
    + exists (players g), []. split; [apply Forall2_hand_extends_refl|now rewrite app_nil_r].
    + exists []. now rewrite app_nil_r.
  - cbv zeta. rewrite run_calls_cons.
    destruct (IH (fst (run_call cardvalue c g))) as (P & (ps1 & ps2 & HF & Hps) & (x & Hx)).
    destruct (run_call_step cardvalue c g)
      as [(HF0 & (y & Hy) & P0) | (_ & _ & uid & name & mid & _ & Hg1)].
    + split; [now rewrite P|split].
      * exists ps1, ps2. split; [|exact Hps].
        now apply (Forall2_hand_extends_trans _ (players (fst (run_call cardvalue c g)))).
      * exists (y ++ x). now rewrite Hx, Hy, app_assoc.
    + rewrite Hg1 in P, HF, Hps, Hx |- *. split; [|split].
      * rewrite P, all_cards_add_player by reflexivity. reflexivity.
      * cbn [players set_players] in HF. apply Forall2_app_inv_l in HF as (l1 & l2 & H1 & _ & ->).
        exists l1, (l2 ++ ps2). split; [exact H1|]. now rewrite Hps, app_assoc.
      * exists x. exact Hx.
Qed.

(** X12: the roster invariant of [add_player] holds whatever calls are
    issued: starting from distinct user ids and at most [MAX_PLAYERS]
    players, the ids stay distinct and the roster never exceeds
    [MAX_PLAYERS]. *)
Theorem calls_keep_roster_valid (cardvalue : hand -> nat) (cs : list api_call) (g : game)
  (Hnd : NoDup (map user_id (players g)))
  (Hl : (List.length (players g) <= MAX_PLAYERS)%nat) :
  let g' := run_calls cardvalue cs g in
  NoDup (map user_id (players g')) /\ (List.length (players g') <= MAX_PLAYERS)%nat.
Proof.
  revert g Hnd Hl; induction cs as [|c cs IH]; intros g Hnd Hl; [now split|].
  cbv zeta. rewrite run_calls_cons. apply IH.
  - destruct (run_call_step cardvalue c g)
      as [(HF & _) | (_ & _ & uid & name & mid & Hn & ->)].
    + now rewrite (Forall2_hand_extends_ids _ _ HF).
    + cbn [players set_players]. rewrite map_app. simpl.
      apply (Permutation_NoDup (Permutation_cons_append _ _)). now constructor.
  - destruct (run_call_step cardvalue c g)
      as [(HF & _) | (_ & Hlt & uid & name & mid & Hn & ->)].
    + apply Forall2_length in HF. lia.
    + cbn [players set_players]. rewrite length_app. simpl. lia.
Qed.

Lemma calls_keep_roster_valid_witness :
  let cs := [CallAddPlayer 1 "Ann" 10; CallAddPlayer 1 "Ann" 11; CallAddPlayer 2 "Bo" 12;
             CallStart; CallAddPlayer 3 "Cy" 13] in
  NoDup (map user_id (players (init_game [2; 3; 4; 5; 6; 7]%nat))) /\
  (List.length (players (init_game [2; 3; 4; 5; 6; 7]%nat)) <= MAX_PLAYERS)%nat /\
  (let g' := run_calls bj_value cs (init_game [2; 3; 4; 5; 6; 7]%nat) in
   NoDup (map user_id (players g')) /\ (List.length (players g') <= MAX_PLAYERS)%nat).
Proof.
  split; [constructor|]. split; [unfold MAX_PLAYERS; simpl; lia|].
  apply calls_keep_roster_valid; [constructor|unfold MAX_PLAYERS; simpl; lia].
Defined.

(** *** The sort and the evaluation *)

Section SortFacts.

Variable cardvalue : hand -> nat.

Lemma value_ge_trans (p q r : participant) :
  value_ge cardvalue p q -> value_ge cardvalue q r -> value_ge cardvalue p r.
Proof. unfold value_ge. lia. Qed.

Lemma insert_desc_hd (y x : participant) (l : list participant) :
  value_ge cardvalue y x -> HdRel (value_ge cardvalue) y l ->
  HdRel (value_ge cardvalue) y (insert_desc cardvalue x l).
Proof.
  intros Hyx Hl. destruct l as [|z l]; simpl.
  - now constructor.
  - destruct (Nat.leb _ _); constructor; [now inversion Hl|exact Hyx].
Qed.

Lemma insert_desc_sorted (x : participant) (l : list participant) :
  Sorted (value_ge cardvalue) l -> Sorted (value_ge cardvalue) (insert_desc cardvalue x l).
Proof.
  induction l as [|y l IH]; intros Hs; simpl.
  - now repeat constructor.
  - apply Sorted_inv in Hs as [Hs Hhd].
    destruct (Nat.leb_spec (cardvalue (cards x)) (cardvalue (cards y))) as [Hle|Hgt].
    + constructor; [now apply IH|]. now apply insert_desc_hd.
    + constructor; [now constructor|]. constructor. unfold value_ge. lia.
Qed.

Lemma sort_list_fold_sorted (l acc : list participant) :
  Sorted (value_ge cardvalue) acc ->
  Sorted (value_ge cardvalue) (fold_left (fun acc x => insert_desc cardvalue x acc) l acc).
Proof.
  revert acc; induction l as [|x l IH]; intros acc Hs; simpl; [exact Hs|].
  apply IH. now apply insert_desc_sorted.
Qed.

(** The players of value [v], in list order. *)
Lemma filter_value_below (v : nat) (l : list participant) :
  (forall q, In q l -> (cardvalue (cards q) < v)%nat) ->
  filter (fun q => Nat.eqb (cardvalue (cards q)) v) l = [].
Proof.
  induction l as [|q l IH]; intros H; simpl; [reflexivity|].
  replace (Nat.eqb (cardvalue (cards q)) v) with false
    by (symmetry; apply Nat.eqb_neq; specialize (H q (or_introl eq_refl)); lia).
  apply IH. intros r Hr. apply H. now right.
Qed.

Lemma insert_desc_filter (v : nat) (x : participant) (l : list participant) :
  Sorted (value_ge cardvalue) l ->
  filter (fun q => Nat.eqb (cardvalue (cards q)) v) (insert_desc cardvalue x l) =
  filter (fun q => Nat.eqb (cardvalue (cards q)) v) l ++
  (if Nat.eqb (cardvalue (cards x)) v then [x] else []).
Proof.
  induction l as [|y l IH]; intros Hs; cbn [insert_desc].
  - simpl. destruct (Nat.eqb _ v); reflexivity.
  - destruct (Nat.leb_spec (cardvalue (cards x)) (cardvalue (cards y))) as [Hle|Hgt].
    + cbn [filter]. apply Sorted_inv in Hs as [Hs' _]. rewrite (IH Hs').
      destruct (Nat.eqb (cardvalue (cards y)) v); reflexivity.
    + apply Sorted_StronglySorted in Hs; [|intros a b c; apply value_ge_trans].
      apply StronglySorted_inv in Hs as [_ Hall].
      destruct (Nat.eqb_spec (cardvalue (cards x)) v) as [Hv|Hv].
      * assert (Hz : filter (fun q => Nat.eqb (cardvalue (cards q)) v) (y :: l) = []).
        { apply filter_value_below. intros q [<-|Hq]; [lia|].
          rewrite Forall_forall in Hall. specialize (Hall q Hq). unfold value_ge in Hall. lia. }
        simpl in Hz |- *. rewrite Hz, Hv, Nat.eqb_refl. reflexivity.
      * simpl. replace (Nat.eqb (cardvalue (cards x)) v) with false
          by (symmetry; now apply Nat.eqb_neq).
        rewrite app_nil_r. reflexivity.
Qed.

Lemma sort_list_fold_filter (v : nat) (l acc : list participant) :
  Sorted (value_ge cardvalue) acc ->
  filter (fun q => Nat.eqb (cardvalue (cards q)) v)
         (fold_left (fun acc x => insert_desc cardvalue x acc) l acc) =
  filter (fun q => Nat.eqb (cardvalue (cards q)) v) acc ++
  filter (fun q => Nat.eqb (cardvalue (cards q)) v) l.
Proof.
  revert acc; induction l as [|x l IH]; intros acc Hs; simpl.
  - now rewrite app_nil_r.
  - rewrite IH by now apply insert_desc_sorted.
    rewrite insert_desc_filter by exact Hs. rewrite <- app_assoc.
    destruct (Nat.eqb _ v); reflexivity.
Qed.

End SortFacts.

Section BranchOutcomes.

Variable cardvalue : hand -> nat.

Lemma eval_dealer_blackjack_spec (ps : list participant) :
  eval_dealer_blackjack cardvalue ps =
  ([], filter (fun p => has_blackjack cardvalue (cards p)) ps,
   filter (fun p => negb (has_blackjack cardvalue (cards p))) ps,
   map (fun p => (p, Qmake 1 1)) (filter (fun p => has_blackjack cardvalue (cards p)) ps)).
Proof.
  induction ps as [|p ps IH]; simpl; [reflexivity|].
  rewrite IH. destruct (has_blackjack cardvalue (cards p)); reflexivity.
Qed.

(** The shape of [evaluation]: the loop of the branch taken classifies the
    non-busted players, the busted ones are appended to the lost list, and
    every payment goes to a player of won (factor 2 or 2.5) or of tie
    (factor 1). *)
Lemma evaluation_shape (g : game) :
  let nb := filter (fun p => Nat.leb (cardvalue (cards p)) 21) (players g) in
  let bu := filter (fun p => busted cardvalue (cards p)) (players g) in
  exists w t l pay,
    evaluation cardvalue g = (sort_list cardvalue w, sort_list cardvalue t,
                              sort_list cardvalue (l ++ bu), pay) /\
    (forall p, In p w \/ In p t \/ In p l -> In p nb) /\
    (forall p f, In (p, f) pay ->
       (In p w /\ (f = Qmake 2 1 \/ f = Qmake 5 2)) \/ (In p t /\ f = Qmake 1 1)).
Proof.
  intros nb bu. unfold evaluation. fold nb bu.
  assert (Hin : forall o, covers o nb ->
            let '(w, t, l, _) := o in forall p, In p w \/ In p t \/ In p l -> In p nb).
  { intros [[[w t] l] pay] Hc p Hp. simpl in Hc. apply (Permutation_in _ Hc).
    rewrite !in_app_iff. tauto. }
  destruct (busted cardvalue (dealer g)) eqn:Eb.
  { pose proof (Hin _ (eval_dealer_busted_covers cardvalue nb)) as Hm.
    pose proof (eval_dealer_busted_spec cardvalue nb) as Hs.
    destruct (eval_dealer_busted cardvalue nb) as [[[w t] l] pay].
    destruct Hs as (-> & -> & -> & ->).
    exists nb, [], [], (map (fun p => (p, busted_factor cardvalue p)) nb).
    split; [reflexivity|split; [exact Hm|]].
    intros p f Hf. apply in_map_iff in Hf as (q & [= <- <-] & Hq). left. split; [exact Hq|].
    unfold busted_factor. destruct (has_blackjack _ _); auto. }
  destruct (has_blackjack cardvalue (dealer g)) eqn:Ebj.
  { pose proof (Hin _ (eval_dealer_blackjack_covers cardvalue nb)) as Hm.
    rewrite eval_dealer_blackjack_spec in Hm |- *.
    eexists _, _, _, _. split; [reflexivity|split; [exact Hm|]].
    intros p f Hf. apply in_map_iff in Hf as (q & [= <- <-] & Hq). right. auto. }
  destruct (Nat.leb (cardvalue (dealer g)) 21) eqn:Ele.
  { set (dv := cardvalue (dealer g)).
    pose proof (Hin _ (eval_compare_covers cardvalue dv nb)) as Hm.
    rewrite eval_compare_spec in Hm |- *.
    eexists _, _, _, _. split; [reflexivity|split; [exact Hm|]].
    intros p f Hf. apply in_map_iff in Hf as (q & [= <- <-] & Hq).
    apply filter_In in Hq as [Hq Hge]. apply Nat.leb_le in Hge.
    unfold compare_factor. destruct (Nat.ltb_spec dv (cardvalue (cards q))) as [Hlt|Hge'].
    - left. split; [|now left]. apply filter_In. split; [exact Hq|]. now apply Nat.ltb_lt.
    - right. split; [|reflexivity]. apply filter_In. split; [exact Hq|].
      apply Nat.eqb_eq. lia. }
  exists [], [], [], []. split; [reflexivity|split].
  - intros p [[]|[[]|[]]].
  - intros p f [].
Qed.

End BranchOutcomes.

(** X13: [_sort_list] returns its argument rearranged ([sorted] neither
    drops nor duplicates an element) in order of non-increasing value. *)
Theorem sort_list_sorted (cardvalue : hand -> nat) (l : list participant) :
  Sorted (value_ge cardvalue) (sort_list cardvalue l) /\
  Permutation (sort_list cardvalue l) l.
Proof.
  split; [|apply sort_list_perm].
  unfold sort_list. apply sort_list_fold_sorted. constructor.
Qed.

(** X14: [_sort_list] is stable, as Python's [sorted] is: the players of
    any one value keep their relative order, so players with equal hands
    stay in join order. *)
Theorem sort_list_stable (cardvalue : hand -> nat) (l : list participant) (v : nat) :
  filter (fun q => Nat.eqb (cardvalue (cards q)) v) (sort_list cardvalue l) =
  filter (fun q => Nat.eqb (cardvalue (cards q)) v) l.
Proof.
  unfold sort_list. rewrite sort_list_fold_filter by constructor. reflexivity.
Qed.

(** X15: when the dealer is not busted and holds a natural blackjack,
    nobody wins; a non-busted player holding a natural blackjack ties and
    is paid factor 1, and every other non-busted player loses and is paid
    nothing. *)
Theorem evaluation_dealer_blackjack (cardvalue : hand -> nat) (g : game)
  (Hnb : busted cardvalue (dealer g) = false)
  (Hbj : has_blackjack cardvalue (dealer g) = true) :
  let '(w, t, l, pay) := evaluation cardvalue g in
  w = [] /\
  forall p, In p (players g) -> (cardvalue (cards p) <= 21)%nat ->
    (has_blackjack cardvalue (cards p) = true ->
       In p t /\ ~ In p l /\ (forall f, In (p, f) pay <-> f = Qmake 1 1)) /\
    (has_blackjack cardvalue (cards p) = false ->
       ~ In p t /\ In p l /\ (forall f, ~ In (p, f) pay)).
Proof.
  unfold evaluation. rewrite Hnb, Hbj, eval_dealer_blackjack_spec.
  set (nb := filter (fun p => Nat.leb (cardvalue (cards p)) 21) (players g)).
  split; [reflexivity|]. intros p Hin Hle.
  assert (Hnbp : In p nb) by (apply filter_In; split; [exact Hin|now apply Nat.leb_le]).
  pose proof (not_busted_not_in_busted cardvalue p (players g) Hle) as Hnbu.
  split; intros Hp.
  - split; [|split].
    + apply in_sort_list, filter_In. auto.
    + rewrite in_sort_list, in_app_iff, filter_In, Hp. simpl. intuition discriminate.
    + intros f. rewrite in_map_iff. split.
      * intros (q & [= <- <-] & _). reflexivity.
      * intros ->. exists p. split; [reflexivity|]. apply filter_In. auto.
  - split; [|split].
    + rewrite in_sort_list, filter_In, Hp. intuition discriminate.
    + apply in_sort_list, in_app_iff. left. apply filter_In. rewrite Hp. auto.
    + intros f Hf. apply in_map_iff in Hf as (q & [= <- <-] & Hq).
      apply filter_In in Hq as [_ Hq]. congruence.
Qed.

Lemma evaluation_dealer_blackjack_witness :
  busted bj_value (dealer ex_dealer_blackjack) = false /\
  has_blackjack bj_value (dealer ex_dealer_blackjack) = true /\
  (let '(w, t, l, pay) := evaluation bj_value ex_dealer_blackjack in
   w = [] /\
   forall p, In p (players ex_dealer_blackjack) -> (bj_value (cards p) <= 21)%nat ->
     (has_blackjack bj_value (cards p) = true ->
        In p t /\ ~ In p l /\ (forall f, In (p, f) pay <-> f = Qmake 1 1)) /\
     (has_blackjack bj_value (cards p) = false ->
        ~ In p t /\ In p l /\ (forall f, ~ In (p, f) pay))).
Proof.
  split; [reflexivity|]. split; [reflexivity|].
  apply (evaluation_dealer_blackjack bj_value ex_dealer_blackjack); reflexivity.
Defined.

(** X16: whatever the dealer holds, a busted player (value above 21) is
    in the lost list, in neither of the others, and is never paid. *)
Theorem evaluation_busted_players_lose (cardvalue : hand -> nat) (g : game) :
  let '(w, t, l, pay) := evaluation cardvalue g in
  forall p, In p (players g) -> (21 < cardvalue (cards p))%nat ->
    In p l /\ ~ In p w /\ ~ In p t /\ (forall f, ~ In (p, f) pay).
Proof.
  destruct (evaluation_shape cardvalue g) as (w & t & l & pay & -> & Hm & Hpay).
  intros p Hin Hgt.
  assert (Hnb : ~ In p (filter (fun p => Nat.leb (cardvalue (cards p)) 21) (players g))).
  { rewrite filter_In. intros [_ H]. apply Nat.leb_le in H. lia. }
  repeat split.
  - apply in_sort_list, in_app_iff. right. apply filter_In. split; [exact Hin|].
    now apply Nat.ltb_lt.
  - rewrite in_sort_list. intros H. apply Hnb, Hm. auto.
  - rewrite in_sort_list. intros H. apply Hnb, Hm. auto.
  - intros f Hf. apply Hnb, Hm. destruct (Hpay p f Hf) as [[H _]|[H _]]; auto.
Qed.

(** X17: every payment of [evaluation] goes to a player of the won list,
    with factor 2 or 2.5, or to a player of the tie list, with factor 1;
    no player outside these lists is ever paid. *)
Theorem evaluation_payments (cardvalue : hand -> nat) (g : game) :
  let '(w, t, l, pay) := evaluation cardvalue g in
  forall p f, In (p, f) pay ->
    (In p w /\ (f = Qmake 2 1 \/ f = Qmake 5 2)) \/ (In p t /\ f = Qmake 1 1).
Proof.
  destruct (evaluation_shape cardvalue g) as (w & t & l & pay & -> & _ & Hpay).
  intros p f Hf. rewrite !in_sort_list. now apply Hpay.
Qed.

(** X18: a freshly constructed game, whatever its deck, cannot be played
    before players join: [start] raises [NotEnoughPlayersException], the
    play calls raise [GameNotRunningException], and [stop] by anyone but
    the sentinel -1 raises [IndexError] (from [self.players[0]]), all
    without changing the game; [stop(-1)] succeeds. *)
Theorem init_game_idle (cardvalue : hand -> nat) (d : list card) (uid : Z) :
  let g := init_game d in
  start g = (g, inl NotEnoughPlayersException) /\
  draw_card cardvalue g = (g, inl GameNotRunningException) /\
  next_player cardvalue g = (g, inl GameNotRunningException) /\
  dealers_turn cardvalue g = (g, inl GameNotRunningException) /\
  (uid <> -1 -> stop uid g = (g, inl IndexError)) /\
  stop (-1) g = (g, inr tt).
Proof.
  intros g. repeat split.
  intros Hu. unfold stop, bind, get, lift, raise.
  apply Z.eqb_neq in Hu. rewrite Hu. reflexivity.
Qed.

(** C6 (amended): [get_current_player] returns [players[i]] for a cursor
    [0 <= i < n] and, through Python's negative indexing, [players[n + i]]
    for a cursor [-n <= i < 0]: at the dealer sentinel -1 on a non-empty
    roster that is the last player.  It raises [IndexError] for a cursor
    outside [-n, n), and only there; it changes nothing. *)
Theorem get_current_player_cases (g : game) :
  let n := Z.of_nat (List.length (players g)) in
  let i := current_player g in
  ((0 <= i < n) -> exists p, nth_error (players g) (Z.to_nat i) = Some p /\
                             get_current_player g = (g, inr p)) /\
  ((- n <= i < 0) -> exists p, nth_error (players g) (Z.to_nat (n + i)) = Some p /\
                               get_current_player g = (g, inr p)) /\
  (i = -1 -> 0 < n -> exists p, nth_error (players g) (Z.to_nat (n - 1)) = Some p /\
                                get_current_player g = (g, inr p)) /\
  ((n <= i \/ i < - n) -> get_current_player g = (g, inl IndexError)) /\
  (forall r, get_current_player g = (g, inl r) -> r = IndexError /\ (n <= i \/ i < - n)).
Proof.
  intros n i.
  unfold get_current_player, bind, get, lift, py_index. cbv zeta. fold n i.
  split; [|split; [|split; [|split]]].
  - intros Hi.
    destruct (nth_error (players g) (Z.to_nat i)) as [p|] eqn:E.
    + exists p. split; [reflexivity|].
      replace ((0 <=? i) && (i <? n)) with true by (symmetry; apply andb_true_iff; lia).
      reflexivity.
    + apply nth_error_None in E. lia.
  - intros Hi.
    destruct (nth_error (players g) (Z.to_nat (n + i))) as [p|] eqn:E.
    + exists p. split; [reflexivity|].
      replace ((0 <=? i) && (i <? n)) with false by (symmetry; apply andb_false_iff; lia).
      replace ((- n <=? i) && (i <? 0)) with true by (symmetry; apply andb_true_iff; lia).
      reflexivity.
    + apply nth_error_None in E. lia.
  - intros Hi Hn.
    destruct (nth_error (players g) (Z.to_nat (n - 1))) as [p|] eqn:E.
    + exists p. split; [reflexivity|].
      replace ((0 <=? i) && (i <? n)) with false by (symmetry; apply andb_false_iff; lia).
      replace ((- n <=? i) && (i <? 0)) with true by (symmetry; apply andb_true_iff; lia).
      replace (n + i) with (n - 1) by lia. now rewrite E.
    + apply nth_error_None in E. lia.
  - intros Hi.
    replace ((0 <=? i) && (i <? n)) with false by (symmetry; apply andb_false_iff; lia).
    replace ((- n <=? i) && (i <? 0)) with false by (symmetry; apply andb_false_iff; lia).
    reflexivity.
  - intros r Hr.
    destruct (Z_le_gt_dec n i) as [Hhi|Hhi]; [|destruct (Z_lt_le_dec i (- n)) as [Hlo|Hlo]].
    + split; [|now left]. apply (py_index_error (players g) i). unfold py_index. cbv zeta.
      fold n i. congruence.
    + split; [|now right]. apply (py_index_error (players g) i). unfold py_index. cbv zeta.
      fold n i. congruence.
    + destruct (py_index_in_range (players g) i) as [a Ha]; [fold n; lia|].
      unfold py_index in Ha. cbv zeta in Ha. fold n i in Ha. congruence.
Qed.

Lemma deal_consumes (es : list entity) (g : game) :
  snd (deal es g) = inr tt -> (List.length es <= List.length (deck g))%nat.
Proof.
  revert g; induction es as [|e es IH]; intros g H; [simpl; lia|].
  rewrite deal_cons in H. destruct (deck g) as [|c rest] eqn:Hd; [discriminate|].
  apply IH in H. unfold give_card, modify in H. cbn [fst] in H.
  destruct e; cbn [deck set_players set_dealer set_deck] in H; simpl; lia.
Qed.

Lemma start_success_consumes (g g' : game) :
  running g = false -> start g = (g', inr tt) ->
  (2 * S (List.length (players g)) <= List.length (deck g))%nat.
Proof.
  intros Hr Hs. unfold start, bind, get, raise, modify, run_handlers, ret in Hs.
  rewrite Hr in Hs. destruct (Nat.ltb (List.length (players g)) 1); [discriminate|].
  set (es := roster_and_dealer (List.length (players g)) ++
             roster_and_dealer (List.length (players g))) in Hs.
  destruct (deal es (set_running g true)) as [g1 [e|[]]] eqn:E; [discriminate|].
  apply (f_equal snd), deal_consumes in E. cbn [deck set_running] in E.
  subst es. rewrite length_app in E. unfold roster_and_dealer in E.
  rewrite length_app, length_map, length_seq in E. simpl in E. lia.
Qed.

(** C2 (amended): on a game that is not running, with [n >= 1] players,
    [start] either finds at least [2 (n + 1)] cards in the card source,
    and then succeeds and deals round-robin over roster-plus-dealer
    (position [pos], [0 .. n-1] the players in join order and [n] the
    dealer, receives exactly the cards number [pos] and [pos + (n + 1)] of
    the source; card [k] goes to position [k mod (n + 1)]), or finds fewer,
    and then the deal stops with the card source's exhaustion error (the
    game left marked running). *)
Theorem start_deals_round_robin (g : game) (Hrun : running g = false)
  (Hne : (1 <= List.length (players g))%nat) :
  let n := List.length (players g) in
  let d := deck g in
  ((2 * S n <= List.length d)%nat ->
   exists g', start g = (g', inr tt) /\ running g' = true /\
     map user_id (players g') = map user_id (players g) /\
     (forall pos, (pos <= n)%nat ->
        hand_at g' pos = hand_at g pos ++ [nth pos d 0%nat; nth (pos + S n) d 0%nat]) /\
     (forall k, (k < 2 * S n)%nat ->
        nth (List.length (hand_at g (k mod S n)) + k / S n) (hand_at g' (k mod S n)) 0%nat
        = nth k d 0%nat) /\
     deck g' = skipn (2 * S n) d) /\
  ((List.length d < 2 * S n)%nat ->
   exists g', start g = (g', inl CardSourceExhausted) /\ running g' = true).
Proof.
  cbv zeta. split.
  - intros Hdeck. exact (start_round_robin_full_deck g Hrun Hne Hdeck).
  - intros Hshort.
    destruct (start_cases g)
      as [(H & _)|[(_ & H & _)|(_ & _ & ps & dl & dk & _ & [E | E])]].
    + congruence.
    + rewrite H in Hne. simpl in Hne. lia.
    + apply start_success_consumes in E; [lia|exact Hrun].
    + eexists. split; [exact E|reflexivity].
Qed.

Lemma start_deals_round_robin_witness :
  running ex_new_table = false /\
  (1 <= List.length (players ex_new_table))%nat /\
  (let n := List.length (players ex_new_table) in
   let d := deck ex_new_table in
   ((2 * S n <= List.length d)%nat ->
    exists g', start ex_new_table = (g', inr tt) /\ running g' = true /\
      map user_id (players g') = map user_id (players ex_new_table) /\
      (forall pos, (pos <= n)%nat ->
         hand_at g' pos = hand_at ex_new_table pos ++ [nth pos d 0%nat; nth (pos + S n) d 0%nat]) /\
      (forall k, (k < 2 * S n)%nat ->
         nth (List.length (hand_at ex_new_table (k mod S n)) + k / S n)
             (hand_at g' (k mod S n)) 0%nat
         = nth k d 0%nat) /\
      deck g' = skipn (2 * S n) d) /\
   ((List.length d < 2 * S n)%nat ->
    exists g', start ex_new_table = (g', inl CardSourceExhausted) /\ running g' = true)).
Proof.
  split; [reflexivity|]. split; [simpl; lia|].
  apply (start_deals_round_robin ex_new_table); [reflexivity|simpl; lia].
Defined.
